(** * galpy_help.py: a shallow embedding and its specification

    The script [galpy-interface/galpy_help.py] inspects the [galpy.potential]
    namespace, keeps the potentials that are three dimensional and have a C
    implementation, and prints for each the [--type-arg] encoding that PeTar
    reads.  Everything the script does with the outside world is an output
    (a [print], a call into galpy, a write to the configure file), so the
    embedding is a writer monad over a log of events, with Python exceptions
    as the error channel. *)

From Stdlib Require Import ZArith String Ascii List Bool Lia DecimalString.
From Stdlib Require DecimalPos DecimalZ.
From stdpp Require Import base option list gmap strings.

Set Warnings "-register-all,-clear-no-such-hyp".

Local Open Scope string_scope.
Local Open Scope list_scope.

(** ** Python strings *)

(** [" " * n] *)
Fixpoint spaces (n : nat) : string :=
  match n with
  | O => ""
  | S k => String " " (spaces k)
  end.

(** ['{:30}'.format(s)]: left aligned, padded with spaces to width 30, never
    truncated. *)
Definition name_format (s : string) : string :=
  s +:+ spaces (30 - String.length s).

(** [str(n)] and ["%d" % n] for an integer. *)
Definition str_int (n : Z) : string := NilZero.string_of_int (Z.to_int n).

(** [sep.join(l)] *)
Definition join (sep : string) (l : list string) : string := String.concat sep l.

(** [s.startswith(p)] *)
Definition startswith (p s : string) : bool := String.prefix p s.

(** [p in s] for strings *)
Definition str_contains (p s : string) : bool :=
  match String.index 0 p s with
  | Some _ => true
  | None => false
  end.

(** The text of one [print(a, b, ...)] call: the arguments separated by one
    space.  The final newline is left out: the log keeps one entry a call. *)
Definition print_args (l : list string) : string := join " " l.

(** ** Exceptions, results and the event log *)

Inductive exn :=
| ValueError
| TypeError
| AttributeError
| RuntimeWarning
| UnboundLocalError (var : string)
| GetoptError (msg : string)
| SystemExit (code : Z)
| OtherError (cls : string).

Inductive result (A : Type) :=
| Ok (a : A)
| Raise (e : exn).
Arguments Ok {A} a.
Arguments Raise {A} e.

(** The [except (ValueError, TypeError, AttributeError, RuntimeWarning)]
    clause of [getPotInstance]. *)
Definition caught_by_getPotInstance (e : exn) : bool :=
  match e with
  | ValueError | TypeError | AttributeError | RuntimeWarning => true
  | _ => false
  end.

(** The exit status of the interpreter. *)
Definition exit_code {A} (r : result A) : Z :=
  match r with
  | Ok _ => 0%Z
  | Raise (SystemExit c) => c
  | Raise _ => 1%Z
  end.

Section Model.

(** Instances and classes of the galpy library are opaque; [Arg] is the type
    of a potential argument (a float64). *)
Context {Obj Cls Arg : Type}.

(** What [pot_instance] can hold: [None], one object, or a list. *)
Inductive Pot :=
| PNone
| PObj (o : Obj)
| PList (l : list Pot).

(** What [galpy.potential.__getattribute__(pot_name)] can give, by the three
    way test on [type(pot_module)]: a list, a class whose type is [type], or
    anything else, which is [None] or some other object. *)
Inductive Attr :=
| AList (l : list Pot)
| AClass (c : Cls)
| AOther (o : Obj)
| ANone.

(** What [pot_module] can hold when it is not [None]: a class, or the type
    of an object or of [None]. *)
Inductive ModRef :=
| MClass (c : Cls)
| MTypeOf (o : Obj)
| MNoneType.

Inductive event :=
| Print (text : string)
| CallDir
| CallGetattribute (name : string)
| CallNew (c : Cls)
| CallDim (p : Pot)
| CallCheckC (p : Pot)
| CallParsePot (p : Pot)
| FileOpenW (fname : string)
| FileWrite (fname : string) (text : string).

Definition M (A : Type) : Type := list event * result A.

#[export] Instance M_ret : MRet M := fun A a => ([], Ok a).

#[export] Instance M_bind : MBind M := fun A B k m =>
  match m with
  | (w, Ok a) => let (w', r) := k a in (w ++ w', r)
  | (w, Raise e) => (w, Raise e)
  end.

Definition emit (e : event) : M unit := ([e], Ok tt).
Definition raise {A} (e : exn) : M A := ([], Raise e).
Definition print (l : list string) : M unit := emit (Print (print_args l)).

(** An external call: logged, then its result or its exception. *)
Definition call {A} (e : event) (r : result A) : M A := ([e], r).

Definition log {A} (m : M A) : list event := fst m.
Definition outcome {A} (m : M A) : result A := snd m.

End Model.

Arguments Pot : clear implicits.
Arguments Attr : clear implicits.
Arguments ModRef : clear implicits.
Arguments event : clear implicits.
Arguments M : clear implicits.


(** A [for item in l: body] loop. *)
Fixpoint for_each {Obj Cls A} (l : list A) (body : A -> M Obj Cls unit)
  : M Obj Cls unit :=
  match l with
  | [] => mret tt
  | item :: rest => body item;; for_each rest body
  end.

(** [try: m except <classes>: h] *)
Definition try_except {Obj Cls A} (m : M Obj Cls A) (classes : exn -> bool)
    (h : exn -> M Obj Cls A) : M Obj Cls A :=
  match m with
  | (w, Raise e) => if classes e then (let (w', r) := h e in (w ++ w', r)) else m
  | _ => m
  end.

(** A computation of the standard library that leaves no trace in the log. *)
Definition call_free {Obj Cls A} (r : result A) : M Obj Cls A := ([], r).

(** Reading a local variable that may not have been assigned yet. *)
Definition read_local {Obj Cls A} (var : string) (v : option A) : M Obj Cls A :=
  match v with
  | Some a => mret a
  | None => raise (UnboundLocalError var)
  end.

(** ** The files written *)

Definition newline : string := String "010" "".

Definition apply_event {Obj Cls} (fs : gmap string string) (e : event Obj Cls)
  : gmap string string :=
  match e with
  | FileOpenW f => <[f := ""]> fs
  | FileWrite f text => alter (fun c => c +:+ text) f fs
  | _ => fs
  end.

Definition files_after {Obj Cls} (w : list (event Obj Cls))
    (fs : gmap string string) : gmap string string :=
  foldl apply_event fs w.

(** ** getopt

    [getopt.getopt] of the Python standard library, with its helpers
    [short_has_arg], [do_shorts], [long_has_args] and [do_longs].  It builds
    the list of [(option, argument)] pairs, or raises [GetoptError]. *)

#[export] Instance result_ret : MRet result := fun A a => Ok a.

#[export] Instance result_bind : MBind result := fun A B k r =>
  match r with
  | Ok a => k a
  | Raise e => Raise e
  end.

Abbreviation opts_t := (list (string * string)).

Definition str_of_char (c : ascii) : string := String c "".

(** [s[n:]] *)
Fixpoint str_drop (n : nat) (s : string) : string :=
  match n, s with
  | S k, String _ s' => str_drop k s'
  | _, _ => s
  end.

(** [s.endswith('=')] and [s[:-1]] *)
Fixpoint ends_with_eq (s : string) : bool :=
  match s with
  | "" => false
  | String c "" => bool_decide (c = "="%char)
  | String _ s' => ends_with_eq s'
  end.

Fixpoint drop_last_char (s : string) : string :=
  match s with
  | "" => ""
  | String _ "" => ""
  | String c s' => String c (drop_last_char s')
  end.

(** [i = opt.index('=')] then [opt[:i], opt[i+1:]]; no second part when
    [index] raises [ValueError]. *)
Fixpoint split_at_eq (opt : string) : string * option string :=
  match opt with
  | "" => ("", None)
  | String c s' =>
      if bool_decide (c = "="%char) then ("", Some s')
      else let (a, b) := split_at_eq s' in (String c a, b)
  end.

Fixpoint short_has_arg (opt : ascii) (shortopts : string) : result bool :=
  match shortopts with
  | "" => Raise (GetoptError ("option -" +:+ str_of_char opt +:+ " not recognized"))
  | String c rest =>
      if bool_decide (opt = c) && negb (bool_decide (c = ":"%char))
      then Ok (startswith ":" rest)
      else short_has_arg opt rest
  end.

Fixpoint do_shorts (opts : opts_t) (optstring shortopts : string)
    (args : list string) : result (opts_t * list string) :=
  match optstring with
  | "" => Ok (opts, args)
  | String opt optstring =>
      has_arg ← short_has_arg opt shortopts;
      if has_arg : bool then
        if bool_decide (optstring = "") then
          match args with
          | [] => Raise (GetoptError ("option -" +:+ str_of_char opt
                                      +:+ " requires argument"))
          | optarg :: args => Ok (opts ++ [("-" +:+ str_of_char opt, optarg)], args)
          end
        else Ok (opts ++ [("-" +:+ str_of_char opt, optstring)], args)
      else do_shorts (opts ++ [("-" +:+ str_of_char opt, "")]) optstring shortopts args
  end.

Definition long_has_args (opt : string) (longopts : list string)
  : result (bool * string) :=
  let possibilities := filter (fun o => startswith opt o = true) longopts in
  match possibilities with
  | [] => Raise (GetoptError ("option --" +:+ opt +:+ " not recognized"))
  | unique_match :: others =>
      if bool_decide (opt ∈ possibilities) then Ok (false, opt)
      else if bool_decide (opt +:+ "=" ∈ possibilities) then Ok (true, opt)
      else
        match others with
        | _ :: _ => Raise (GetoptError ("option --" +:+ opt
                                        +:+ " not a unique prefix"))
        | [] =>
            let has_arg := ends_with_eq unique_match in
            Ok (has_arg,
                if has_arg then drop_last_char unique_match else unique_match)
        end
  end.

Definition do_longs (opts : opts_t) (opt : string) (longopts : list string)
    (args : list string) : result (opts_t * list string) :=
  let (opt, optarg) := split_at_eq opt in
  '(has_arg, opt) ← long_has_args opt longopts;
  if has_arg : bool then
    match optarg, args with
    | Some optarg, _ => Ok (opts ++ [("--" +:+ opt, optarg)], args)
    | None, [] => Raise (GetoptError ("option --" +:+ opt +:+ " requires argument"))
    | None, optarg :: args => Ok (opts ++ [("--" +:+ opt, optarg)], args)
    end
  else
    match optarg with
    | Some _ => Raise (GetoptError ("option --" +:+ opt
                                    +:+ " must not have an argument"))
    | None => Ok (opts ++ [("--" +:+ opt, "")], args)
    end.

(** The [while] loop of [getopt.getopt].  Every round takes at least one
    argument, so [length args] rounds are enough ([getopt_loop_fuel]); the
    case of no fuel left is not reached. *)
Fixpoint getopt_loop (fuel : nat) (opts : opts_t) (args : list string)
    (shortopts : string) (longopts : list string)
  : result (opts_t * list string) :=
  match args with
  | [] => Ok (opts, args)
  | a :: rest =>
      if startswith "-" a && negb (bool_decide (a = "-")) then
        if bool_decide (a = "--") then Ok (opts, rest)
        else
          match fuel with
          | O => Ok (opts, args)
          | S fuel =>
              '(opts, args) ←
                (if startswith "--" a
                 then do_longs opts (str_drop 2 a) longopts rest
                 else do_shorts opts (str_drop 1 a) shortopts rest);
              getopt_loop fuel opts args shortopts longopts
          end
      else Ok (opts, args)
  end.

Definition getopt (args : list string) (shortopts : string)
    (longopts : list string) : result (opts_t * list string) :=
  getopt_loop (length args) [] args shortopts longopts.

(** ** The texts of the script *)

(** The lines [usage()] prints. *)
Definition usage_text : list string :=
  [ "A too to show the description of Galpy potential, help to set the parameters of --type-arg in petar commander";
    "Usage: petar.galpy.help [potential name]";
    "       This will show the help of the given potential and also the type index for --type-arg option.";
    "       Without a potential name, all supported potential names in Galpy will be listed.";
    "       For a potential requiring a long argument list, the type and arguments are not printed, use '-l' to show that.";
    "       it is suggested to use a configure file to read arguments.";
    "Options: ";
    "    -d         : call Python help function to show the document of a give potential";
    "                 This option only works when a potential name is provided.";
    "    -o [string]: Output the type-arg to a configure file; the argument of this option is the filename";
    "    -h (--help): help" ].

(** The description printed when no potential name is given (the [else] branch at the end of the script). *)
Definition setup_text : list string :=
  [ "Here are the description for setup of --galpy-type-arg and --galpy-conf-file for using Galpy in PeTar.";
    "Units: the default arguments in potentials are using the Galpy (natural) unit (velocity in [220 km/s], distance in [8 kpc]).";
    "       If the input particle data have different units, the scaling factor should be properly set.";
    "       For example, when the particle mass is in Msun, then the argument 'amp' in a Galpy potential can be calculated by G*M*GMscale";
    "       where M is in Msun; G = 0.0044983099795944 [Msun, pc, Myr]; and GMscale = 2.4692087520131e-09  [galpy GM unit] / [pc^3/Myr^2].";
    "--galpy-type-arg: the parameters to set up a set of potentials fixed at the center of the galactic reference frame.";
    "    This is for a quick set-up of potentials. For a more complex and flexible set of potentials, use --galpy-conf-file.";
    "    The format for a combination of the types and arguments of potentials have two styles: (no space in the middle):";
    "       1) [type1]:[arg1-1],[arg1-2],**|[type2]:[arg2-1],[arg2-2],**";
    "       2) [type1],[type2],..:[arg1-1],[arg1-2],[arg2-1],**";
    "       where '|' split different potential types;";
    "             ':' separates the type indices and the argument list;";
    "             ',' separates the items of types or arguments in their lists.";
    "       For example:";
    "          1) --galpy-type-arg 15:0.0299946,1.8,0.2375|5:0.7574802,0.375,0.035|9:4.85223053,2.0";
    "          2) --galpy-type-arg 15,5,9:0.0299946,1.8,0.2375,0.7574802,0.375,0.035,4.85223053,2.0";
    "          both can generate the MWPotential2014 from Galpy (same to --galpy-set MWPotential2014)";
    "       Users can use Galpy (_parse_pot function, see its online manual) to find and configure the types and arguments of potentials.";
    "       The defaults values of types and arguments for supported potentials can be found at the end.";
    "       The potentials defined in --galpy-type-arg and --galpy-set are both added.";
    "       Thus, don't repeat the same potential sets in the two options.";
    "--galpy-conf-file: the configure file containing the parameters for time- and space-dependent potentials.";
    "       Users can add, modify and remove potentials at a given time.";
    "       For each potential, the origin (zero) point can be fixed at the galactic frame or follow the motion of particle system.";
    "       The potential can be also treated as moving object feeling the force from the other potentials and the particle system.";
    "       The configure file contain a group of blocks with update times.";
    "       The format of one block like:";
    "           Time [value (Galpy unit)] Task [task name]";
    "           [parameters]";
    "       Each type of parameter follows its label, like 'Time [value]'.";
    "       Here 'Time' is the update time of potentials during the simulation.";
    "       The detail of potentials depends on the following 'Task' and parameters.";
    "       Be careful for the unit conversion of time and parameters between PeTar and Galpy.";
    "       Don't rename, delete or modify the configure file before the simulation ends.";
    "       The format of [parameters] depends on the task name (add, remove, update) shown as following";
    "";
    "       For the task 'add':";
    "               Nset [number]";
    "               [set 0 content]";
    "               [set 1 content]";
    "               ...";
    "           Nset indicates the number of new potential sets, each set shares the same central position and velocity.";
    "           Each of the following set content contains a few lines of parameters: ";
    "               Set [index]";
    "               Ntype [number] Mode [index]";
    "               Pos [x y z] Vel [vx vy vz]";
    "               Type [type1 type2 ...]";
    "               Arg [arg1-1 arg1-2 ... arg2-1 ...]";
    "               Nchange [number] Index [Arg_index1, Arg_index2, Arg_index3...]";
    "               *ChangeMode [mode1, mode2, mode3...]";
    "               *ChangeRate [rate1, rate2, rate3...]";
    "           The definition of each parameter:";
    "               Ntype: number of potential types";
    "                     If there is no argument, the 4th line (Type ...) is still necessary (empty line).";
    "               Mode: an index to indicate the reference frame for the position and velocity of the potential center:";
    "                     0: The galactic frame";
    "                     1: The particle-system frame; also follow the motion of its center";
    "                     2: The galactic frame, but move based on the forces from other potentials and from the particle system";
    "               Pos, Vel: the initial position and velocity of the potential center [Galpy unit] in the reference frame depended on the Mode.";
    "               Type, Arg: types and arguments of each potential, similar to those in --galpy-type-arg.";
    "                          The number of values in Type line must be Ntype.";
    "               The three lines following 'Nchange' are options for evolving potential parameters during the simulation.";
    "                  Nchange: number of evolving arguments, if 0, the following two lines (marked with '*') are not needed.";
    "                  Arg_index: the indice of arguments to change during simulation (counting from zero based on the 'Arg' line).";
    "                  ChangeMode: the changing mode for each Arg_index: ";
    "                              1: change the argument linearly;";
    "                              2: change the argument exponentially.";
    "                  ChangeRate: the changing rate for each Arg_index, based on ChangeMode:";
    "                              linearly (1): change value per Galpy time unit;";
    "                              exponentially (2): coefficient 'a' in the expotential delay or increase form: (exp^{a*t})";
    "           For example, the configure file of MWPotential2014 with a linearly-mass-decrease Plummer potential following the motion of the particle system (Galpy unit):";
    "                 Time 0.0 Task add                    #[Update at time 0; task is 'add']";
    "                 Nset 2                               #[2 potential sets]";
    "                 Set 0                                #[Set 0 (MWPotential2014)]";
    "                 Ntype 3 Mode 0                       #[3 potential types for MilkyWay; Mode 0 (galactic frame)]";
    "                 Pos 0.0 0.0 0.0 Vel 0.0 0.0 0.0      #[x, y, z, vx, vy, vz (galactic frame)]";
    "                 Type 15 5 9                          #[3 type indices (MWPotential2014)]";
    "                 Arg 0.029994597188218 1.8 0.2375 0.75748020193716 0.375 0.035 4.852230533528 2.0 #[All arguments for MWPotential2014]";
    "                 Nchange 0                            #[No changing arguments)]";
    "                 Set 1                                #[Set 1 (Plummer)";
    "                 Ntype 1 Mode 1                       #[1 type; Mode 1 (particle-system frame)";
    "                 Pos 0.0 0.0 0.0 Vel 0.0 0.0 0.0      #[x, y, z, vx, vy, vz (particle-system frame)]";
    "                 Type 17                              #[Type index for Plummer]";
    "                 Arg 1.11072675e-8 0.000125           #[Two arguments for Plummer (1000 Msun, 1 pc)";
    "                 Nchange 1 Index 0                    #[1 Changing argument, changing index is mass of Plummer]";
    "                 ChangeMode 1                         #[Linearly change]";
    "                 ChangeRate -1e-9                     #[Reduce 1e-9 (Galpy mass unit) per Galpy time unit)]";
    "           Here the G*M and distance scaling factors are 2.4692087520131e-09 [galpy GM unit] / [pc^3/Myr^2] and 0.000125 [8 kpc] / [pc], respectively;";
    "           Notice that the comments after the symbol # here are for reference, don't write them in the configure file.";
    "       For task 'update':";
    "           The format is the same as task 'add'.";
    "           Here Nset is the number of potential sets for update.";
    "           For parameters of each set, only the definition of Mode has a small change:";
    "           For update, the mode has four choices instead: 0, 1, 2 and -2:";
    "               0: The potential center is shifted to the new position and velocity (following line) at the galactic frame;";
    "               1: The potential center is shifted to the new position and velocity at the particle-system frame;";
    "               2: The (moving) potential center is shifted to the new position and velocity at the galactic frame;";
    "              -2: The (moving) potential center keeps the original position and velocity, only update potential arguments.";
    "           For example, stop the mass decrease for the Plummer model at time 1 referring to the above instance:";
    "               Time 1.0 Task update";
    "               Nset 1 Index 1      #[only need to change set 1 (Plummer)]";
    "               Set 1";
    "               Ntype 1 Mode 1";
    "               Pos 0.0 0.0 0.0 Vel 0.0 0.0 0.0";
    "               Type 17";
    "               Arg 1.1072675e-9  0.000125";
    "               Nchange 0           #[Stop changing mass]";
    "       For task 'remove':";
    "               Nset [number] Index [set_index1 set_index2 ...]";
    "           Here Nset is the number of potential sets to be removed, followed by the indices of removing sets.";
    "           For example, remove the Plummer potential at time 2 following the previous instance:";
    "               Time 2.0 Task remove";
    "               Nset 1 Index 1";
    "Users can either use --galpy-type-arg and --galpy-set or --galpy-conf-file. But if both are used, the error will appear.";
    "Here are the supported list of Potentials and their default type indices and arguments:" ].

(** ** The environment: galpy and the float formats of Python *)

Record Env {Obj Cls Arg : Type} := {
  (** [dir(galpy.potential)] *)
  potential_dir : list string;
  (** [galpy.potential.__getattribute__(name)], for a name of the list *)
  potential_getattribute : string -> Attr Obj Cls;
  (** [pot_module()]: the instance with default parameters, or what the
      constructor raises *)
  new_instance : Cls -> result Obj;
  (** [galpy.potential._dim]; [None] when it returns no integer *)
  _dim : Pot Obj -> result (option Z);
  (** [galpy.potential.Potential._check_c], by the truth value of its result *)
  _check_c : Pot Obj -> result bool;
  (** [galpy.orbit.integrateFullOrbit._parse_pot] *)
  _parse_pot : Pot Obj -> result (Z * list Z * list Arg);
  (** [type(o).__name__] *)
  class_name : Obj -> string;
  (** [p.__doc__] and [p.__init__.__doc__], as [print] shows them *)
  doc : Pot Obj -> string;
  init_doc : Pot Obj -> string;
  (** [str(x)] and ["%.14g" % x] for a float64 *)
  str_float : Arg -> string;
  fmt_14g : Arg -> string
}.
Arguments Env : clear implicits.

Section Program.

Context {Obj Cls Arg : Type} (E : Env Obj Cls Arg).

Local Abbreviation Pot := (Pot Obj).
Local Abbreviation ModRef := (ModRef Obj Cls).
Local Abbreviation M := (M Obj Cls).

(** *** getPotInstance *)

(** [d != 3] *)
Definition ne_3 (d : option Z) : bool := negb (bool_decide (d = Some 3%Z)).

Definition getPotInstance (pot_name : string) : M (option ModRef * Pot) :=
  names ← call CallDir (Ok (potential_dir E));
  if bool_decide (pot_name ∈ names) && str_contains "Potential" pot_name then
    pot_module ← call (CallGetattribute pot_name)
                      (Ok (potential_getattribute E pot_name));
    '(pot_module, pot_instance) ←
      match pot_module with
      | AList l => mret (None, PList l)
      | AClass c =>
          try_except
            (pot_instance ← call (CallNew c) (new_instance E c);
             mret (Some (MClass c), PObj pot_instance))
            caught_by_getPotInstance
            (fun _ => mret (None, PNone))
      | AOther o => mret (Some (MTypeOf o), PObj o)
      | ANone => mret (Some MNoneType, PNone)
      end;
    match pot_instance with
    | PNone => mret (pot_module, pot_instance)
    | _ =>
        d ← call (CallDim pot_instance) (_dim E pot_instance);
        let pot_instance := if ne_3 d then PNone else pot_instance in
        c ← call (CallCheckC pot_instance) (_check_c E pot_instance);
        let pot_instance := if negb c then PNone else pot_instance in
        mret (pot_module, pot_instance)
    end
  else mret (None, PNone).

(** *** savePotTypeArg

    [FileOpenW f] stands for an [open(f,'w')] that succeeded, [FileWrite]
    for a write that did: the embedding follows the calls in which the file
    can be opened and written, and says what they write.  An [open] that
    raises (a directory, a missing parent) is outside it. *)

Definition savePotTypeArg (config_filename : string) (n_pot : Z)
    (pot_type : list Z) (pot_arg : list Arg) : M unit :=
  let f := config_filename in
  emit (FileOpenW f);;
  emit (FileWrite f ("0 " +:+ str_int n_pot +:+ newline));;
  for_each pot_type (fun item => emit (FileWrite f (str_int item +:+ " ")));;
  emit (FileWrite f newline);;
  for_each pot_arg (fun item => emit (FileWrite f (fmt_14g E item +:+ " ")));;
  emit (FileWrite f newline).

(** *** printPotTypeArg *)

(** [type(p).__name__] *)
Definition type_name (p : Pot) : string :=
  match p with
  | PNone => "NoneType"
  | PObj o => class_name E o
  | PList _ => "list"
  end.

(** The four values [printPotTypeArg] returns. *)
Local Abbreviation type_arg_t := (string * Z * list Z * list Arg)%type.

(** [str(l[i])], for an index in range *)
Definition str_at {A} (str : A -> string) (l : list A) (i : nat) : string :=
  from_option str "" (l !! i).

(** [str(l[-1])], for a list that is not empty *)
Definition str_last {A} (str : A -> string) (l : list A) : string :=
  from_option str "" (last l).

(** [for i in range(len(l)-1): s += str(l[i]) + ','] *)
Definition comma_loop {A} (str : A -> string) (l : list A) (s : string)
  : string :=
  foldl (fun s i => s +:+ (str_at str l i +:+ ",")) s (seq 0 (length l - 1)).

Definition make_pot_args_str (pot_args : list Arg) : string :=
  let pot_args_str := comma_loop (str_float E) pot_args "" in
  if bool_decide (0 < length pot_args)%nat
  then pot_args_str +:+ str_last (str_float E) pot_args
  else pot_args_str.

(** The [if (pot_type.size>0)] block; [None] is the local variable
    [type_arg] left unassigned. *)
Definition make_type_arg (pot_type : list Z) (pot_args : list Arg)
  : option string :=
  if bool_decide (0 < length pot_type)%nat then
    let pot_args_str := make_pot_args_str pot_args in
    if bool_decide (length pot_type = 1%nat)
    then Some (str_at str_int pot_type 0 +:+ ":" +:+ pot_args_str)
    else
      let type_arg := comma_loop str_int pot_type "" in
      Some (type_arg +:+ (str_last str_int pot_type +:+ ":" +:+ pot_args_str))
  else None.

(** The [elif (pot_instance != None)] branch. *)
Definition printSingle (pot_name : string) (pot_instance : Pot)
    (print_front_offset : nat) (print_long_list : bool) : M type_arg_t :=
  '(npot, pot_type, pot_args) ←
    call (CallParsePot pot_instance) (_parse_pot E pot_instance);
  let type_arg := make_type_arg pot_type pot_args in
  (if bool_decide (12 < length pot_args)%nat && negb print_long_list
   then print [spaces print_front_offset; name_format pot_name;
               "long argument list, require a configure file"]
   else t ← read_local "type_arg" type_arg;
        print [spaces print_front_offset; name_format pot_name; t]);;
  t ← read_local "type_arg" type_arg;
  mret (t, npot, pot_type, pot_args).

(** The body of [for pot_sub in pot_instance], with the recursive call as
    [rec]. *)
Fixpoint combine_loop (rec : Pot -> M type_arg_t) (subs : list Pot)
    (acc : type_arg_t) : M type_arg_t :=
  match subs with
  | [] => mret acc
  | pot_sub :: rest =>
      let '(type_arg, npot, pot_type, pot_arg) := acc in
      '(type_arg_sub, n_sub, type_sub, arg_sub) ← rec pot_sub;
      let type_arg :=
        if bool_decide (type_arg ≠ "") then type_arg +:+ "|" else type_arg in
      combine_loop rec rest
        (type_arg +:+ type_arg_sub, (npot + n_sub)%Z,
         pot_type ++ type_sub, pot_arg ++ arg_sub)
  end.

Fixpoint printPotTypeArg (pot_name : string) (pot_module : option ModRef)
    (pot_instance : Pot) (print_front_offset : nat) (print_long_list : bool)
    {struct pot_instance} : M type_arg_t :=
  match pot_module, pot_instance with
  | None, PList l =>
      print [spaces print_front_offset; name_format pot_name;
             "a combination of " +:+ str_int (Z.of_nat (length l))
             +:+ " potentials:"];;
      '(type_arg, npot, pot_type, pot_arg) ←
        combine_loop
          (fun pot_sub =>
             printPotTypeArg (type_name pot_sub) None pot_sub
               (print_front_offset + 4) print_long_list)
          l ("", 0%Z, [], []);
      print [spaces (print_front_offset + 4); name_format "Combination: ";
             type_arg];;
      mret (type_arg, npot, pot_type, pot_arg)
  | _, PNone => mret ("", 0%Z, [], [])
  | _, _ => printSingle pot_name pot_instance print_front_offset print_long_list
  end.

(** *** printPotTitle, printSpliter, listPot *)

Definition printPotTitle : M unit :=
  print [name_format "Potential name";
         " Options for 'petar --type-arg' with default potential parameters"].

Definition printSpliter : M unit :=
  print ["----------------------------------------------------------------------------------------------"].

(** The body of the loop of [listPot]. *)
Definition listPot_body (pot_name : string) : M unit :=
  '(pot_module, pot_instance) ← getPotInstance pot_name;
  match pot_instance with
  | PNone => mret tt
  | _ => printPotTypeArg pot_name pot_module pot_instance 0 false;; mret tt
  end.

Definition listPot : M unit :=
  printPotTitle;;
  printSpliter;;
  pot_list ← call CallDir (Ok (potential_dir E));
  for_each pot_list listPot_body.

(** *** The script *)

Definition usage : M unit := for_each usage_text (fun line => print [line]).

Definition shortargs : string := "o:dhl".
Definition longargs : list string := ["help"].

(** [for opt,arg in opts].  The tests [opt in ('-d')] and [opt in ('-o')]
    have a string on the right (the parentheses make no tuple), so they are
    substring tests; [opt in ('-h','--help')] is membership in a tuple. *)
Fixpoint handle_opts (opts : opts_t) (print_help_flag : bool)
    (config_filename : string) : M (bool * string) :=
  match opts with
  | [] => mret (print_help_flag, config_filename)
  | (opt, arg) :: rest =>
      if str_contains opt "-d" then handle_opts rest true config_filename
      else if str_contains opt "-o" then handle_opts rest print_help_flag arg
      else if bool_decide (opt ∈ ["-h"; "--help"]) then
        usage;; raise (SystemExit 1)
      else handle_opts rest print_help_flag config_filename
  end.

(** The [try] block that parses the command line, with its handler. *)
Definition parse_command_line (argv : list string)
  : M (bool * string * list string) :=
  try_except
    ('(opts, remainder) ← call_free (getopt argv shortargs longargs);
     '(print_help_flag, config_filename) ← handle_opts opts false "";
     mret (print_help_flag, config_filename, remainder))
    (fun e => match e with GetoptError _ => true | _ => false end)
    (fun e =>
       print [match e with GetoptError msg => msg | _ => "" end];;
       usage;;
       raise (SystemExit 2)).

(** [if (len(remainder)>0)], the branch of a given potential name. *)
Definition show_potential (pot_name : string) (print_help_flag : bool)
    (config_filename : string) : M unit :=
  '(pot_module, pot_instance) ← getPotInstance pot_name;
  match pot_instance with
  | PNone =>
      print [pot_name;
             " is not found in supported Galpy potential list. Available potentials are:"];;
      listPot
  | _ =>
      printPotTitle;;
      '(type_arg, n_pot, pot_type, pot_arg) ←
        printPotTypeArg pot_name pot_module pot_instance 0 false;
      printSpliter;;
      (if bool_decide (config_filename ≠ "") then
         print ["Save type arguments of " +:+ pot_name +:+ " to file "
                +:+ config_filename +:+ "."];;
         savePotTypeArg config_filename n_pot pot_type pot_arg
       else mret tt);;
      printSpliter;;
      if print_help_flag then
        print ["Class definition of " +:+ pot_name +:+ " from Galpy:"];;
        match pot_instance with
        | PList l =>
            for_each l (fun pot_sub =>
              print [doc E pot_sub];; print [init_doc E pot_sub])
        | _ => print [doc E pot_instance];; print [init_doc E pot_instance]
        end;;
        if bool_decide (pot_name = "KeplerPotential") then
          print ["Notice that the Kepler potential is generated from the PowerSphericalPotential (type index: 7) with alpha = 3"];;
          print ["Thus, the second argument (alpha) must be 3 "]
        else mret tt
      else mret tt
  end.

(** The script once [import galpy] has succeeded. *)
Definition run (argv : list string) : M unit :=
  '(print_help_flag, config_filename, remainder) ← parse_command_line argv;
  match remainder with
  | pot_name :: _ => show_potential pot_name print_help_flag config_filename
  | [] => for_each setup_text (fun line => print [line]);; listPot
  end.

End Program.

(** The whole script, [sys.argv[1:]] being [argv]; [galpy] is [None] when
    [import galpy] raises [ImportError]. *)
Definition main {Obj Cls Arg} (galpy : option (Env Obj Cls Arg))
    (argv : list string) : M Obj Cls unit :=
  match galpy with
  | None =>
      print ["galpy is not found, please check whether it is included in the PYTHONPATH"];;
      raise (SystemExit 2)
  | Some E => run E argv
  end.

(** ** A small galpy, to run the script on

    Six objects and three classes stand for the cases the script tells apart;
    the arguments are floats with an integer value, small enough for [str] to
    print them as [n.0] and ["%.14g"] as [n]. *)
Module Demo.

Inductive obj := Kepler | Plummer | Wide | Untyped | Planar | NoC.
Inductive cls := KeplerClass | AbstractClass | BrokenClass.

Definition demo_parse (p : Pot obj) : result (Z * list Z * list Z) :=
  match p with
  | PObj Kepler => Ok (1, [7], [1; 3])%Z
  | PObj Plummer => Ok (1, [17], [1; 2])%Z
  | PObj Wide => Ok (1, [31], [1; 2; 3; 4; 5; 6; 7; 8; 9; 10; 11; 12; 13])%Z
  | PObj Untyped => Ok (0, [], [])%Z
  | PObj Planar => Ok (1, [7], [1; 3])%Z
  | PObj NoC => Ok (1, [99], [1])%Z
  | PList _ => Ok (2, [7; 17], [1; 3; 1; 2])%Z
  | PNone => Raise TypeError
  end.

Definition demo_dim (p : Pot obj) : result (option Z) :=
  match p with
  | PObj Planar => Ok (Some 2%Z)
  | PNone => Ok None
  | _ => Ok (Some 3%Z)
  end.

Definition demo_check_c (p : Pot obj) : result bool :=
  match p with
  | PObj NoC | PNone => Ok false
  | _ => Ok true
  end.

Definition demo_getattribute (name : string) : Attr obj cls :=
  if bool_decide (name = "KeplerPotential") then AClass KeplerClass
  else if bool_decide (name = "Potential") then AClass AbstractClass
  else if bool_decide (name = "BrokenPotential") then AClass BrokenClass
  else if bool_decide (name = "MWPotential") then AList [PObj Kepler; PObj Plummer]
  else if bool_decide (name = "WidePotential") then AOther Wide
  else if bool_decide (name = "PlanarPotential") then AOther Planar
  else AOther NoC.

Definition demo_new (c : cls) : result obj :=
  match c with
  | KeplerClass => Ok Kepler
  | AbstractClass => Raise TypeError
  | BrokenClass => Raise (OtherError "KeyError")
  end.

Definition demo_env (names : list string) : Env obj cls Z := {|
  potential_dir := names;
  potential_getattribute := demo_getattribute;
  new_instance := demo_new;
  _dim := demo_dim;
  _check_c := demo_check_c;
  _parse_pot := demo_parse;
  class_name := fun o =>
    match o with
    | Kepler => "KeplerPotential"
    | Plummer => "PlummerPotential"
    | _ => "Potential"
    end;
  doc := fun _ => "doc";
  init_doc := fun _ => "init";
  str_float := fun x => str_int x +:+ ".0";
  fmt_14g := str_int
|}.

Definition names : list string :=
  ["KeplerPotential"; "MWPotential"; "Potential"; "WidePotential";
   "PlanarPotential"; "NoCPotential"; "evaluateDensities"].

Definition galpy : Env obj cls Z := demo_env names.

(** A namespace in which [MWPotential] is a list of seven Kepler potentials,
    with 14 arguments in all. *)
Definition seven_keplers : list (Pot obj) := repeat (PObj Kepler) 7.

Definition galpy_long_list : Env obj cls Z := {|
  potential_dir := ["KeplerPotential"; "MWPotential"];
  potential_getattribute := fun name =>
    if bool_decide (name = "MWPotential") then AList seven_keplers
    else demo_getattribute name;
  new_instance := demo_new;
  _dim := demo_dim;
  _check_c := demo_check_c;
  _parse_pot := demo_parse;
  class_name := class_name galpy;
  doc := doc galpy;
  init_doc := init_doc galpy;
  str_float := str_float galpy;
  fmt_14g := fmt_14g galpy
|}.

End Demo.

(** ** Notions used to state the properties *)

(** The [--type-arg] text of one parse: the type codes joined with commas,
    a colon, the arguments joined with commas. *)
Definition encoding {Obj Cls Arg} (E : Env Obj Cls Arg) (pot_type : list Z)
    (pot_args : list Arg) : string :=
  join "," (map str_int pot_type) +:+ ":"
  +:+ join "," (map (str_float E) pot_args).

(** What is left of a list of texts once the empty ones at its head are
    dropped. *)
Fixpoint drop_empty_prefix (l : list string) : list string :=
  match l with
  | "" :: rest => drop_empty_prefix rest
  | _ => l
  end.

(** The lines of a text file: every newline ends a line, and what follows the
    last newline is a line when it is not empty. *)
Fixpoint lines_go (cur s : string) : list string :=
  match s with
  | "" => if bool_decide (cur = "") then [] else [cur]
  | String c s' =>
      if bool_decide (c = "010"%char) then cur :: lines_go "" s'
      else lines_go (cur +:+ str_of_char c) s'
  end.

Definition lines (s : string) : list string := lines_go "" s.

Fixpoint no_newline (s : string) : bool :=
  match s with
  | "" => true
  | String c s' => negb (bool_decide (c = "010"%char)) && no_newline s'
  end.

(** Each text followed by one space. *)
Definition space_ended (l : list string) : string :=
  String.concat "" (map (fun s => s +:+ " ") l).

(** The text the returned tuple of [printPotTypeArg] starts with. *)
Definition returned_encoding {Obj Cls Arg}
    (m : M Obj Cls (string * Z * list Z * list Arg)) : option string :=
  match outcome m with
  | Ok (type_arg, _, _, _) => Some type_arg
  | Raise _ => None
  end.

(** The four parts of the tuple [printPotTypeArg] returns. *)
Definition enc_of {Arg} (r : string * Z * list Z * list Arg) : string :=
  r.1.1.1.
Definition count_of {Arg} (r : string * Z * list Z * list Arg) : Z :=
  r.1.1.2.
Definition types_of {Arg} (r : string * Z * list Z * list Arg) : list Z :=
  r.1.2.
Definition args_of {Arg} (r : string * Z * list Z * list Arg) : list Arg :=
  r.2.

Definition sum_Z (l : list Z) : Z := foldr Z.add 0%Z l.

(** One round of the loop over the components, on the values alone. *)
Definition combine_step {Arg} (acc r : string * Z * list Z * list Arg)
  : string * Z * list Z * list Arg :=
  ((if bool_decide (enc_of acc ≠ "") then enc_of acc +:+ "|" else enc_of acc)
   +:+ enc_of r,
   (count_of acc + count_of r)%Z,
   types_of acc ++ types_of r,
   args_of acc ++ args_of r).

(** The line of [printPotTypeArg] for one potential, [text] being the
    encoding or the placeholder. *)
Definition listing_line (print_front_offset : nat) (pot_name text : string)
  : string :=
  print_args [spaces print_front_offset; name_format pot_name; text].

Definition long_list_text : string :=
  "long argument list, require a configure file".

(** A potential instance, as the documentation of [printPotTypeArg] has it:
    an object of the library, or a list, not empty, of potential
    instances. *)
Fixpoint is_instance {Obj} (p : Pot Obj) : bool :=
  match p with
  | PNone => false
  | PObj _ => true
  | PList [] => false
  | PList (sub :: rest) => is_instance sub && forallb is_instance rest
  end.

(** The writes of [savePotTypeArg], in order. *)
Definition config_writes {Obj Cls Arg} (E : Env Obj Cls Arg) (n_pot : Z) (pot_type : list Z) (pot_arg : list Arg)
  : list string :=
  ("0 " +:+ str_int n_pot +:+ newline)
  :: map (fun item => str_int item +:+ " ") pot_type
  ++ newline
  :: map (fun item => fmt_14g E item +:+ " ") pot_arg
  ++ [newline].

(** The two stages of [getPotInstance]: finding the candidate (the lines up
    to [pot_module = type(pot_module)]), and the two tests on a candidate
    that is not [None]. *)
Definition candidate {Obj Cls Arg} (E : Env Obj Cls Arg) (pot_name : string)
  : M Obj Cls (option (ModRef Obj Cls) * Pot Obj) :=
  names ← call CallDir (Ok (potential_dir E));
  if bool_decide (pot_name ∈ names) && str_contains "Potential" pot_name then
    pot_module ← call (CallGetattribute pot_name)
                      (Ok (potential_getattribute E pot_name));
    match pot_module with
    | AList l => mret (None, PList l)
    | AClass c =>
        try_except
          (pot_instance ← call (CallNew c) (new_instance E c);
           mret (Some (MClass c), PObj pot_instance))
          caught_by_getPotInstance
          (fun _ => mret (None, PNone))
    | AOther o => mret (Some (MTypeOf o), PObj o)
    | ANone => mret (Some MNoneType, PNone)
    end
  else mret (None, PNone).

Definition support_tests {Obj Cls Arg} (E : Env Obj Cls Arg)
    (pot_instance : Pot Obj) : M Obj Cls (Pot Obj) :=
  match pot_instance with
  | PNone => mret PNone
  | _ =>
      d ← call (CallDim pot_instance) (_dim E pot_instance);
      let pot_instance := if ne_3 d then PNone else pot_instance in
      c ← call (CallCheckC pot_instance) (_check_c E pot_instance);
      mret (if negb c then PNone else pot_instance)
  end.

(** The name passes the test at the head of [getPotInstance]. *)
Definition is_potential_name {Obj Cls Arg} (E : Env Obj Cls Arg)
    (pot_name : string) : bool :=
  bool_decide (pot_name ∈ potential_dir E) && str_contains "Potential" pot_name.

(** The reading of the rule on constructors with every failure caught. *)
Definition instantiation_failure_is_skipped {Obj Cls Arg}
    (E : Env Obj Cls Arg) (pot_name : string) : Prop :=
  forall c e,
    is_potential_name E pot_name = true ->
    potential_getattribute E pot_name = AClass c ->
    new_instance E c = Raise e ->
    outcome (getPotInstance E pot_name) = Ok (None, PNone).

(** The result of the parser with the options [pre] found before. *)
Definition with_earlier_opts (pre : opts_t)
    (r : result (opts_t * list string)) : result (opts_t * list string) :=
  '(opts, args) ← r; Ok (pre ++ opts, args).

(** The option is a request for help. *)
Definition is_help (oa : string * string) : bool :=
  bool_decide (oa.1 = "-h") || bool_decide (oa.1 = "--help").

(** The option is not [-l]. *)
Definition not_l (oa : string * string) : bool :=
  negb (bool_decide (oa.1 = "-l")).

(** The reading of the help rule for every state of the installation. *)
Definition help_exits_with_1 {Obj Cls Arg} (galpy : option (Env Obj Cls Arg))
    (argv : list string) : Prop :=
  forall opts remainder,
    getopt argv shortargs longargs = Ok (opts, remainder) ->
    existsb is_help opts = true ->
    main galpy argv = (map Print usage_text, Raise (SystemExit 1)).

(** The text of [print(pot_name, " is not found ...")]. *)
Definition not_found_line (pot_name : string) : string :=
  print_args [pot_name;
    " is not found in supported Galpy potential list. Available potentials are:"].

(** The reading of the rule on unknown names with the encoding of every
    supported potential in the output: each name of the namespace for which
    [getPotInstance] gives an instance, and [printPotTypeArg] an encoding, has
    that encoding in one of the printed texts. *)
Definition lists_every_encoding {Obj Cls Arg} (E : Env Obj Cls Arg)
    (argv : list string) : Prop :=
  forall n m inst r,
    In n (potential_dir E) ->
    outcome (getPotInstance E n) = Ok (m, inst) ->
    inst <> PNone ->
    outcome (printPotTypeArg E n m inst 0 false) = Ok r ->
    exists text,
      In (Print text) (log (main (Some E) argv))
      /\ str_contains (enc_of r) text = true.

(** The script ends with the status of success. *)
Definition ends_well {Obj Cls Arg} (E : Env Obj Cls Arg)
    (argv : list string) : Prop :=
  exit_code (outcome (main (Some E) argv)) = 0%Z.

(** The reading of the rule on long argument lists for every potential: when
    the potential named on the command line is supported and has more than 12
    arguments, the output has the "long argument list" line for it and no
    printed text holds its encoding. *)
Definition long_list_gets_placeholder {Obj Cls Arg} (E : Env Obj Cls Arg)
    (argv : list string) : Prop :=
  forall w0 flag fname name rest m inst r,
    parse_command_line (Obj := Obj) (Cls := Cls) argv
    = (w0, Ok (flag, fname, name :: rest)) ->
    outcome (getPotInstance E name) = Ok (m, inst) ->
    inst <> PNone ->
    outcome (printPotTypeArg E name m inst 0 false) = Ok r ->
    12 < length (args_of r) ->
    In (Print (listing_line 0 name long_list_text)) (log (main (Some E) argv))
    /\ forall text,
         In (Print text) (log (main (Some E) argv)) ->
         str_contains (enc_of r) text = false.

(** ** Notions used to state the further properties *)

(** The file an event writes to, if it is a file event. *)
Definition file_of {Obj Cls} (ev : event Obj Cls) : option string :=
  match ev with
  | FileOpenW f | FileWrite f _ => Some f
  | _ => None
  end.

(** The event is a [print]. *)
Definition is_print {Obj Cls} (ev : event Obj Cls) : Prop :=
  exists text, ev = Print text.

(** The option is one the loop of the script takes as [-d] (the first test),
    or as [-o] (the second test, reached when the first fails). *)
Definition taken_as_d (oa : string * string) : bool := str_contains oa.1 "-d".

Definition taken_as_o (oa : string * string) : bool :=
  negb (str_contains oa.1 "-d") && str_contains oa.1 "-o".

Fixpoint no_space (s : string) : bool :=
  match s with
  | "" => true
  | String c s' => negb (bool_decide (c = " "%char)) && no_space s'
  end.

(** The logs of the bodies of a loop, one after the other. *)
Definition logs_of {Obj Cls A} (body : A -> M Obj Cls unit) (l : list A)
  : list (event Obj Cls) :=
  concat (map (fun x => log (body x)) l).

(** The texts printed, in order: the output of a run. *)
Fixpoint prints_of {Obj Cls} (w : list (event Obj Cls)) : list string :=
  match w with
  | [] => []
  | Print text :: rest => text :: prints_of rest
  | _ :: rest => prints_of rest
  end.

(** The lines of one name in the listing: those [printPotTypeArg] prints for
    it when [getPotInstance] gives an instance, none otherwise. *)
Definition listed_lines {Obj Cls Arg} (E : Env Obj Cls Arg) (name : string)
  : list string :=
  match outcome (getPotInstance E name) with
  | Ok (m, PNone) => []
  | Ok (m, inst) => prints_of (log (printPotTypeArg E name m inst 0 false))
  | Raise _ => []
  end.

(** The event, if it is a [print], shows a text that starts with [n]
    spaces. *)
Definition indented {Obj Cls} (n : nat) (ev : event Obj Cls) : Prop :=
  forall text, ev = Print text -> exists rest, text = spaces n +:+ rest.

(** * Properties *)

(** ** Strings *)

Lemma str_app_nil_r (s : string) : s +:+ "" = s.
Proof. induction s as [|c s IH]; [done|]. unfold String.app; simpl. by f_equal. Qed.

Lemma str_app_assoc (s1 s2 s3 : string) :
  (s1 +:+ s2) +:+ s3 = s1 +:+ (s2 +:+ s3).
Proof.
  induction s1 as [|c s1 IH]; [done|].
  unfold String.app; simpl. by f_equal.
Qed.

Lemma str_app_cons (c : ascii) (s1 s2 : string) :
  String c s1 +:+ s2 = String c (s1 +:+ s2).
Proof. done. Qed.

Lemma join_cons2 (sep a b : string) (l : list string) :
  join sep (a :: b :: l) = a +:+ sep +:+ join sep (b :: l).
Proof. done. Qed.

Lemma concat_empty_cons (x : string) (l : list string) :
  String.concat "" (x :: l) = x +:+ String.concat "" l.
Proof. destruct l; [by rewrite str_app_nil_r|done]. Qed.

(** ** The monad *)

Section MonadFacts.

Context {Obj Cls : Type}.
Local Abbreviation M := (M Obj Cls).

Lemma bind_ok {A B} (m : M A) (k : A -> M B) w a :
  m = (w, Ok a) -> m ≫= k = (w ++ log (k a), outcome (k a)).
Proof. intros ->. unfold mbind, M_bind, log, outcome. by destruct (k a). Qed.

Lemma bind_raise {A B} (m : M A) (k : A -> M B) w e :
  m = (w, Raise e) -> m ≫= k = (w, Raise e).
Proof. by intros ->. Qed.

Lemma outcome_pair {A} (w : list (event Obj Cls)) (r : result A) :
  outcome (w, r) = r.
Proof. done. Qed.

Lemma log_pair {A} (w : list (event Obj Cls)) (r : result A) :
  log (w, r) = w.
Proof. done. Qed.

Lemma surjective_M {A} (m : M A) : m = (log m, outcome m).
Proof. by destruct m. Qed.

Lemma log_bind_ok {A B} (m : M A) (k : A -> M B) a :
  outcome m = Ok a -> log (m ≫= k) = log m ++ log (k a).
Proof.
  intros H. rewrite (bind_ok m k (log m) a); [done|].
  rewrite <- H. apply surjective_M.
Qed.

Lemma outcome_bind_ok {A B} (m : M A) (k : A -> M B) a :
  outcome m = Ok a -> outcome (m ≫= k) = outcome (k a).
Proof.
  intros H. rewrite (bind_ok m k (log m) a); [done|].
  rewrite <- H. apply surjective_M.
Qed.

Lemma outcome_bind_raise {A B} (m : M A) (k : A -> M B) e :
  outcome m = Raise e -> m ≫= k = (log m, Raise e).
Proof.
  intros H. apply bind_raise. rewrite <- H. apply surjective_M.
Qed.

(** A bind that ends well went through a first part that ended well. *)
Lemma bind_ok_inv {A B} (m : M A) (k : A -> M B) b :
  outcome (m ≫= k) = Ok b ->
  exists a, outcome m = Ok a /\ outcome (k a) = Ok b.
Proof.
  destruct m as [w [a|e]]; [|done].
  intros H. exists a. split; [done|].
  by rewrite (bind_ok _ k w a) in H.
Qed.

Lemma for_each_cons {A} (x : A) (l : list A) (body : A -> M unit) :
  for_each (x :: l) body = body x ≫= fun _ => for_each l body.
Proof. done. Qed.

(** The log of a loop whose body only emits one event. *)
Lemma for_each_emit {A} (l : list A) (ev : A -> event Obj Cls) :
  for_each l (fun x => emit (ev x)) = (map ev l, Ok tt).
Proof.
  induction l as [|x l IH]; [done|].
  simpl. rewrite IH. done.
Qed.

End MonadFacts.

(** One step of a computation whose first part is known. *)
Ltac mstep := unfold call, call_free, emit, raise; cbn [mbind M_bind mret M_ret].

(** ** The encoding of one potential *)

Section Encoding.

Context {Obj Cls Arg : Type} (E : Env Obj Cls Arg).

Lemma comma_loop_cons {A} (str : A -> string) x y (l : list A) s :
  comma_loop str (x :: y :: l) s
  = comma_loop str (y :: l) (s +:+ (str x +:+ ",")).
Proof.
  unfold comma_loop. simpl length.
  replace (S (S (length l)) - 1) with (S (S (length l) - 1)) by lia.
  cbn [seq foldl]. rewrite <- fmap_S_seq, foldl_fmap. done.
Qed.

(** The loop over all items but the last, then the last item, is a join. *)
Lemma comma_loop_join {A} (str : A -> string) (l : list A) s :
  l <> [] ->
  comma_loop str l s +:+ str_last str l = s +:+ join "," (map str l).
Proof.
  revert s. induction l as [|x [|y l] IH]; intros s Hl; [done|done|].
  rewrite comma_loop_cons.
  change (str_last str (x :: y :: l)) with (str_last str (y :: l)).
  rewrite IH by done.
  change (map str (x :: y :: l)) with (str x :: map str (y :: l)).
  cbn [map]. rewrite join_cons2, !str_app_assoc. done.
Qed.

Lemma make_pot_args_str_join (pot_args : list Arg) :
  make_pot_args_str E pot_args = join "," (map (str_float E) pot_args).
Proof.
  unfold make_pot_args_str. destruct pot_args as [|a l]; [done|].
  rewrite bool_decide_true by (simpl; lia).
  by rewrite comma_loop_join.
Qed.

Lemma make_type_arg_some (pot_type : list Z) (pot_args : list Arg) :
  pot_type <> [] ->
  make_type_arg E pot_type pot_args = Some (encoding E pot_type pot_args).
Proof.
  intros Ht. unfold make_type_arg, encoding.
  rewrite make_pot_args_str_join.
  destruct pot_type as [|t [|t' l]]; [done|done|].
  rewrite bool_decide_true by (simpl; lia).
  rewrite bool_decide_false by (simpl; lia).
  f_equal. rewrite <- !str_app_assoc. rewrite comma_loop_join by done.
  done.
Qed.

Lemma make_type_arg_none (pot_args : list Arg) :
  make_type_arg E [] pot_args = None.
Proof. done. Qed.

(** What the [elif] branch does, case by case. *)
Lemma printSingle_typed name p off long n pot_type pot_args :
  _parse_pot E p = Ok (n, pot_type, pot_args) ->
  pot_type <> [] ->
  printSingle E name p off long
  = ([CallParsePot p;
      Print (listing_line off name
               (if bool_decide (12 < length pot_args) && negb long
                then long_list_text else encoding E pot_type pot_args))],
     Ok (encoding E pot_type pot_args, n, pot_type, pot_args)).
Proof.
  intros Hp Ht. unfold printSingle. rewrite Hp. mstep.
  rewrite make_type_arg_some by done.
  by destruct (bool_decide (12 < length pot_args) && negb long).
Qed.

Lemma printSingle_untyped name p off long n pot_args :
  _parse_pot E p = Ok (n, [], pot_args) ->
  printSingle E name p off long
  = (CallParsePot p ::
       (if bool_decide (12 < length pot_args) && negb long
        then [Print (listing_line off name long_list_text)] else []),
     Raise (UnboundLocalError "type_arg")).
Proof.
  intros Hp. unfold printSingle. rewrite Hp. mstep.
  rewrite make_type_arg_none.
  by destruct (bool_decide (12 < length pot_args) && negb long).
Qed.

Lemma printSingle_raise name p off long e :
  _parse_pot E p = Raise e ->
  printSingle E name p off long = ([CallParsePot p], Raise e).
Proof. intros Hp. unfold printSingle. by rewrite Hp. Qed.

Lemma printPotTypeArg_obj name m o off long :
  printPotTypeArg E name m (PObj o) off long
  = printSingle E name (PObj o) off long.
Proof. by destruct m. Qed.

End Encoding.

(** Induction on an instance, with the components of a list as smaller
    instances. *)
Lemma Pot_nested_ind {Obj} (P : Pot Obj -> Prop) :
  P PNone ->
  (forall o, P (PObj o)) ->
  (forall l, Forall P l -> P (PList l)) ->
  forall p, P p.
Proof.
  intros HN HO HL. fix IH 1. intros [|o|l]; [exact HN|apply HO|].
  apply HL. induction l as [|x l IHl]; constructor; [apply IH|exact IHl].
Qed.

(** ** The encoding of a combination *)

Section Combination.

Context {Obj Cls Arg : Type} (E : Env Obj Cls Arg).

Local Abbreviation tuple := (string * Z * list Z * list Arg)%type.

Lemma combine_loop_ok (rec : Pot Obj -> M Obj Cls tuple) subs rs acc :
  Forall2 (fun sub r => outcome (rec sub) = Ok r) subs rs ->
  outcome (combine_loop rec subs acc) = Ok (foldl combine_step acc rs).
Proof.
  intros H. revert acc.
  induction H as [|sub r subs rs Hr _ IH]; intros acc; [done|].
  destruct acc as [[[ta n] ts] az]. cbn [combine_loop foldl].
  rewrite (outcome_bind_ok _ _ r Hr).
  destruct r as [[[e n'] ts'] az']. apply IH.
Qed.

(** Once the text is not empty, every further component is added behind a
    bar. *)
Lemma combine_step_started (rs : list tuple) ta n ts az :
  ta <> "" ->
  foldl combine_step (ta, n, ts, az) rs
  = (ta +:+ String.concat "" (map (fun r => "|" +:+ enc_of r) rs),
     (n + sum_Z (map count_of rs))%Z,
     ts ++ concat (map types_of rs),
     az ++ concat (map args_of rs)).
Proof.
  revert ta n ts az.
  induction rs as [|r rs IH]; intros ta n ts az Hta.
  - cbn. by rewrite str_app_nil_r, Z.add_0_r, !app_nil_r.
  - cbn [foldl]. unfold combine_step at 2. cbn [enc_of count_of types_of args_of fst snd].
    rewrite bool_decide_true by done.
    rewrite IH.
    + cbn [map concat sum_Z foldr]. fold (sum_Z (map count_of rs)).
      by rewrite <- !app_assoc, concat_empty_cons, !str_app_assoc, Z.add_assoc.
    + destruct ta; [done|]. by rewrite str_app_cons.
Qed.

Lemma join_bar_cons e (rs : list tuple) :
  e +:+ String.concat "" (map (fun r => "|" +:+ enc_of r) rs)
  = join "|" (e :: map enc_of rs).
Proof.
  revert e. induction rs as [|r rs IH]; intros e.
  - apply str_app_nil_r.
  - cbn [map]. by rewrite join_cons2, <- IH, concat_empty_cons, !str_app_assoc.
Qed.

Lemma combine_step_fresh (rs : list tuple) n ts az :
  foldl combine_step ("", n, ts, az) rs
  = (join "|" (drop_empty_prefix (map enc_of rs)),
     (n + sum_Z (map count_of rs))%Z,
     ts ++ concat (map types_of rs),
     az ++ concat (map args_of rs)).
Proof.
  revert n ts az. induction rs as [|r rs IH]; intros n ts az.
  - cbn. by rewrite Z.add_0_r, !app_nil_r.
  - destruct r as [[[e n'] ts'] az'].
    cbn [foldl]. unfold combine_step at 2.
    cbn [enc_of count_of types_of args_of fst snd].
    rewrite bool_decide_false by (intros H; by apply H).
    cbn [map concat sum_Z foldr enc_of count_of types_of args_of fst snd].
    fold (sum_Z (map count_of rs)).
    destruct e as [|c e].
    + change ("" +:+ "") with "". rewrite IH. cbn [drop_empty_prefix].
      by rewrite <- !app_assoc, Z.add_assoc.
    + change ("" +:+ String c e) with (String c e).
      rewrite combine_step_started by done.
      cbn [drop_empty_prefix]. rewrite join_bar_cons.
      by rewrite <- !app_assoc, Z.add_assoc.
Qed.

Lemma drop_empty_prefix_id (l : list string) :
  head l <> Some "" -> drop_empty_prefix l = l.
Proof. destruct l as [|[|c s] l]; done. Qed.

(** A loop over the components that ends well went through a call that
    ended well for each of them. *)
Lemma combine_loop_ok_inv (rec : Pot Obj -> M Obj Cls tuple) subs acc r :
  outcome (combine_loop rec subs acc) = Ok r ->
  exists rs,
    Forall2 (fun sub r => outcome (rec sub) = Ok r) subs rs
    /\ r = foldl combine_step acc rs.
Proof.
  revert acc. induction subs as [|sub subs IH]; intros acc.
  - cbn [combine_loop]. intros [= <-]. by exists [].
  - destruct acc as [[[ta n] ts] az]. cbn [combine_loop].
    intros [[[[e n'] ts'] az'] [Hs Hrest]]%bind_ok_inv.
    destruct (IH _ Hrest) as (rs & Hrs & ->).
    exists ((e, n', ts', az') :: rs). split; [by constructor|done].
Qed.

(** What [printPotTypeArg] returns for a list, in general: the texts of the
    components with an empty text at the head of the list add no bar. *)
Lemma printPotTypeArg_list_outcome name (l : list (Pot Obj)) off long
    (rs : list tuple) :
  Forall2
    (fun sub r =>
       outcome (printPotTypeArg E (type_name E sub) None sub (off + 4) long)
       = Ok r) l rs ->
  outcome (printPotTypeArg E name None (PList l) off long)
  = Ok (join "|" (drop_empty_prefix (map enc_of rs)),
        sum_Z (map count_of rs),
        concat (map types_of rs),
        concat (map args_of rs)).
Proof.
  intros H. cbn [printPotTypeArg].
  apply combine_loop_ok with (acc := ("", 0%Z, [], [])) in H.
  rewrite combine_step_fresh in H. cbn [app] in H. rewrite Z.add_0_l in H.
  rewrite (outcome_bind_ok _ _ tt) by done.
  by rewrite (outcome_bind_ok _ _ _ H).
Qed.

Lemma printPotTypeArg_list_ok_inv name (l : list (Pot Obj)) off long r :
  outcome (printPotTypeArg E name None (PList l) off long) = Ok r ->
  exists rs,
    Forall2
      (fun sub r =>
         outcome (printPotTypeArg E (type_name E sub) None sub (off + 4) long)
         = Ok r) l rs
    /\ enc_of r = join "|" (drop_empty_prefix (map enc_of rs)).
Proof.
  cbn [printPotTypeArg].
  intros [[] [_ H]]%bind_ok_inv.
  apply bind_ok_inv in H as [[[[ta n] ts] az] [Hloop H]].
  apply combine_loop_ok_inv in Hloop as (rs & Hrs & Hacc).
  exists rs. split; [done|].
  apply bind_ok_inv in H as [[] [_ [= <-]]].
  rewrite combine_step_fresh in Hacc. by injection Hacc as -> _ _ _.
Qed.

Lemma encoding_not_empty (pot_type : list Z) (pot_args : list Arg) :
  encoding E pot_type pot_args <> "".
Proof.
  unfold encoding. by destruct (join "," (map str_int pot_type)).
Qed.

Lemma join_head_not_empty (sep e : string) (l : list string) :
  e <> "" -> join sep (e :: l) <> "".
Proof.
  intros He. destruct e as [|c e]; [done|].
  destruct l as [|e' l]; [done|]. by rewrite join_cons2.
Qed.

(** The text returned for a potential instance is not empty. *)
Lemma is_instance_encoding (p : Pot Obj) :
  is_instance p = true ->
  forall name off long r,
    outcome (printPotTypeArg E name None p off long) = Ok r ->
    enc_of r <> "".
Proof.
  induction p as [|o|l IH] using Pot_nested_ind; [done| |].
  - intros _ name off long r. rewrite printPotTypeArg_obj.
    destruct (_parse_pot E (PObj o)) as [[[n ts] az]|e] eqn:Hp.
    + destruct ts as [|t ts].
      * by rewrite (printSingle_untyped E _ _ _ _ _ _ Hp).
      * rewrite (printSingle_typed E _ _ _ _ _ _ _ Hp) by done.
        intros [= <-]. apply encoding_not_empty.
    + by rewrite (printSingle_raise E _ _ _ _ _ Hp).
  - destruct l as [|sub rest]; [done|].
    intros [Hsub _]%andb_prop name off long r Hr.
    apply printPotTypeArg_list_ok_inv in Hr as (rs & Hrs & ->).
    inversion Hrs as [|? r1 ? rs1 Hr1 _]; subst.
    inversion IH as [|? ? IHsub _]; subst.
    specialize (IHsub Hsub _ _ _ _ Hr1).
    cbn [map]. rewrite drop_empty_prefix_id by (cbn; congruence).
    by apply join_head_not_empty.
Qed.

End Combination.

(** C1.  For a list of potential instances, called as the script calls it for
    a list (with no module), [printPotTypeArg] returns, when each component
    returns: the encodings of the components joined with a bar, in the order
    of the list; the sum of the counts; the type lists and the argument lists
    concatenated in the same order.  Of the components only the first has to
    be a potential instance (an object of the library or a list, not empty,
    of potential instances) for this to hold. *)
Theorem printPotTypeArg_combination {Obj Cls Arg} (E : Env Obj Cls Arg)
    (name : string) (l : list (Pot Obj)) (off : nat) (long : bool)
    (rs : list (string * Z * list Z * list Arg)) :
  (forall sub, head l = Some sub -> is_instance sub = true) ->
  Forall2
    (fun sub r =>
       outcome (printPotTypeArg E (type_name E sub) None sub (off + 4) long)
       = Ok r) l rs ->
  outcome (printPotTypeArg E name None (PList l) off long)
  = Ok (join "|" (map enc_of rs),
        sum_Z (map count_of rs),
        concat (map types_of rs),
        concat (map args_of rs)).
Proof.
  intros Hhead H.
  rewrite (printPotTypeArg_list_outcome E name l off long rs H).
  rewrite drop_empty_prefix_id; [done|].
  destruct H as [|sub r l rs Hr _]; [done|].
  cbn [map head]. intros [= He].
  by apply (is_instance_encoding E sub (Hhead sub eq_refl) _ _ _ _ Hr).
Qed.

Lemma printPotTypeArg_combination_witness :
  ((forall sub, head [PObj Demo.Kepler; PObj Demo.Plummer] = Some sub ->
                is_instance sub = true)
   /\ Forall2
        (fun sub r =>
           outcome (printPotTypeArg Demo.galpy (type_name Demo.galpy sub) None
                      sub (0 + 4) false) = Ok r)
        [PObj Demo.Kepler; PObj Demo.Plummer]
        [("7:1.0,3.0", 1%Z, [7%Z], [1%Z; 3%Z]);
         ("17:1.0,2.0", 1%Z, [17%Z], [1%Z; 2%Z])])
  /\ outcome (printPotTypeArg Demo.galpy "MWPotential" None
                (PList [PObj Demo.Kepler; PObj Demo.Plummer]) 0 false)
     = Ok ("7:1.0,3.0|17:1.0,2.0", 2%Z, [7%Z; 17%Z], [1%Z; 3%Z; 1%Z; 2%Z]).
Proof.
  assert (forall sub, head [PObj Demo.Kepler; PObj Demo.Plummer] = Some sub ->
                      is_instance sub = true) as Hhead.
  { intros sub [= <-]. reflexivity. }
  assert (Forall2
    (fun sub r =>
       outcome (printPotTypeArg Demo.galpy (type_name Demo.galpy sub) None sub
                  (0 + 4) false) = Ok r)
    [PObj Demo.Kepler; PObj Demo.Plummer]
    [("7:1.0,3.0", 1%Z, [7%Z], [1%Z; 3%Z]);
     ("17:1.0,2.0", 1%Z, [17%Z], [1%Z; 2%Z])]) as H.
  { repeat constructor. }
  split; [by split|].
  exact (printPotTypeArg_combination Demo.galpy "MWPotential" _ 0 false _ Hhead H).
Defined.

(** C3.  For an instance that is no list, when the parse gives the type codes
    [pot_type] (at least one) and the arguments [pot_args], [printPotTypeArg]
    returns the type codes joined with commas, a colon, and the arguments
    joined with commas, together with what the parse gave; with exactly one
    type code [t] the text is [str(t)], a colon, and the arguments joined with
    commas. *)
Theorem printPotTypeArg_single_encoding {Obj Cls Arg} (E : Env Obj Cls Arg)
    (name : string) (m : option (ModRef Obj Cls)) (o : Obj) (off : nat)
    (long : bool) (n : Z) (pot_type : list Z) (pot_args : list Arg) :
  _parse_pot E (PObj o) = Ok (n, pot_type, pot_args) ->
  pot_type <> [] ->
  outcome (printPotTypeArg E name m (PObj o) off long)
  = Ok (join "," (map str_int pot_type) +:+ ":"
        +:+ join "," (map (str_float E) pot_args), n, pot_type, pot_args)
  /\ (forall t, pot_type = [t] ->
      returned_encoding (printPotTypeArg E name m (PObj o) off long)
      = Some (str_int t +:+ ":" +:+ join "," (map (str_float E) pot_args))).
Proof.
  intros Hp Ht.
  rewrite printPotTypeArg_obj, (printSingle_typed E _ _ _ _ _ _ _ Hp Ht).
  split; [done|]. by intros t ->.
Qed.

Lemma printPotTypeArg_single_encoding_witness :
  (_parse_pot Demo.galpy (PObj Demo.Kepler) = Ok (1%Z, [7%Z], [1%Z; 3%Z])
   /\ [7%Z] <> [])
  /\ returned_encoding
       (printPotTypeArg Demo.galpy "KeplerPotential" (Some (MClass Demo.KeplerClass))
          (PObj Demo.Kepler) 0 false)
     = Some "7:1.0,3.0".
Proof.
  split; [split; [reflexivity|discriminate]|].
  exact (proj2 (printPotTypeArg_single_encoding Demo.galpy "KeplerPotential"
                  (Some (MClass Demo.KeplerClass)) Demo.Kepler 0 false
                  1%Z [7%Z] [1%Z; 3%Z] eq_refl ltac:(discriminate))
               7%Z eq_refl).
Defined.

(** C8.  For an instance that is no list, when the parse gives no type code
    the local variable [type_arg] is read without having been assigned and
    [printPotTypeArg] raises [UnboundLocalError]; with at most 12 arguments
    this happens at the [print], before anything is printed.  So the function
    returns only when the parse gives at least one type code. *)
Theorem printPotTypeArg_needs_type_code {Obj Cls Arg} (E : Env Obj Cls Arg)
    (name : string) (m : option (ModRef Obj Cls)) (o : Obj) (off : nat)
    (long : bool) (n : Z) (pot_args : list Arg) :
  _parse_pot E (PObj o) = Ok (n, [], pot_args) ->
  outcome (printPotTypeArg E name m (PObj o) off long)
  = Raise (UnboundLocalError "type_arg")
  /\ (length pot_args <= 12 ->
      log (printPotTypeArg E name m (PObj o) off long) = [CallParsePot (PObj o)])
  /\ (forall name' m' off' long' r,
      outcome (printPotTypeArg E name' m' (PObj o) off' long') <> Ok r).
Proof.
  intros Hp. rewrite printPotTypeArg_obj, (printSingle_untyped E _ _ _ _ _ _ Hp).
  split; [done|]. split.
  - intros Hlen. by rewrite bool_decide_false by lia.
  - intros name' m' off' long' r.
    by rewrite printPotTypeArg_obj, (printSingle_untyped E _ _ _ _ _ _ Hp).
Qed.

Lemma printPotTypeArg_needs_type_code_witness :
  _parse_pot Demo.galpy (PObj Demo.Untyped) = Ok (0%Z, [], [])
  /\ printPotTypeArg Demo.galpy "Potential" None (PObj Demo.Untyped) 0 false
     = ([CallParsePot (PObj Demo.Untyped)], Raise (UnboundLocalError "type_arg")).
Proof.
  split; [reflexivity|].
  pose proof (printPotTypeArg_needs_type_code Demo.galpy "Potential" None
                Demo.Untyped 0 false 0%Z [] eq_refl) as [Hout [Hlog _]].
  rewrite (surjective_M (printPotTypeArg _ _ _ _ _ _)).
  rewrite Hout, Hlog; [reflexivity|]. simpl. lia.
Defined.

(** ** The configure file *)

Lemma concat_empty_app (l1 l2 : list string) :
  String.concat "" (l1 ++ l2) = String.concat "" l1 +:+ String.concat "" l2.
Proof.
  induction l1 as [|x l1 IH]; [done|].
  change ((x :: l1) ++ l2) with (x :: (l1 ++ l2)).
  by rewrite !concat_empty_cons, IH, str_app_assoc.
Qed.

Lemma no_newline_app (s1 s2 : string) :
  no_newline s1 = true -> no_newline s2 = true -> no_newline (s1 +:+ s2) = true.
Proof.
  intros H1 H2. induction s1 as [|c s1 IH]; [done|].
  rewrite str_app_cons. cbn [no_newline] in *.
  apply andb_true_iff in H1 as [Hc H1]. rewrite Hc. by apply IH.
Qed.

Lemma no_newline_uint (d : Decimal.uint) :
  no_newline (NilEmpty.string_of_uint d) = true.
Proof. induction d; simpl; done. Qed.

(** A decimal integer holds no newline. *)
Lemma no_newline_str_int (z : Z) : no_newline (str_int z) = true.
Proof.
  unfold str_int, NilZero.string_of_int, NilZero.string_of_uint.
  destruct (Z.to_int z) as [d|d].
  - destruct d; try done; apply (no_newline_uint (_ _)).
  - cbn [no_newline]. destruct d; try done; apply (no_newline_uint (_ _)).
Qed.

Lemma no_newline_space_ended (l : list string) :
  Forall (fun s => no_newline s = true) l -> no_newline (space_ended l) = true.
Proof.
  unfold space_ended. induction 1 as [|s l Hs _ IH]; [done|].
  cbn [map]. rewrite concat_empty_cons.
  apply no_newline_app; [|done]. by apply no_newline_app.
Qed.

(** A text without newline, then a newline: one line. *)
Lemma lines_go_line (cur s rest : string) :
  no_newline s = true ->
  lines_go cur (s +:+ newline +:+ rest) = (cur +:+ s) :: lines_go "" rest.
Proof.
  revert cur. induction s as [|c s IH]; intros cur Hs.
  - by rewrite str_app_nil_r.
  - rewrite str_app_cons. cbn [lines_go no_newline] in *.
    apply andb_true_iff in Hs as [Hc Hs].
    destruct (bool_decide (c = "010"%char)); [done|].
    rewrite IH by done. by rewrite str_app_assoc.
Qed.

Lemma lines_three (l1 l2 l3 : string) :
  no_newline l1 = true -> no_newline l2 = true -> no_newline l3 = true ->
  lines ((l1 +:+ newline) +:+ (l2 +:+ newline) +:+ (l3 +:+ newline))
  = [l1; l2; l3].
Proof.
  intros H1 H2 H3. unfold lines.
  rewrite !str_app_assoc, lines_go_line by done.
  rewrite lines_go_line by done.
  rewrite <- (str_app_nil_r newline) at 1. by rewrite lines_go_line.
Qed.

Section ConfigureFile.

Context {Obj Cls Arg : Type} (E : Env Obj Cls Arg).

Lemma savePotTypeArg_eq f n_pot pot_type pot_arg :
  savePotTypeArg E f n_pot pot_type pot_arg
  = (FileOpenW f :: map (FileWrite f) (config_writes E n_pot pot_type pot_arg),
     Ok tt).
Proof.
  unfold savePotTypeArg, config_writes. rewrite !for_each_emit. mstep.
  cbn [app map]. rewrite map_app, map_map. cbn [map].
  by rewrite map_app, map_map.
Qed.

Lemma files_after_cons (e : event Obj Cls) (w : list (event Obj Cls))
    (fs : gmap string string) :
  files_after (e :: w) fs = files_after w (apply_event fs e).
Proof. done. Qed.

Lemma files_after_writes (f : string) (texts : list string)
    (fs : gmap string string) (c : string) :
  fs !! f = Some c ->
  files_after (Obj := Obj) (Cls := Cls) (map (FileWrite f) texts) fs !! f
  = Some (c +:+ String.concat "" texts).
Proof.
  revert fs c. induction texts as [|t texts IH]; intros fs c Hc.
  - by rewrite str_app_nil_r.
  - cbn [map files_after foldl apply_event].
    rewrite concat_empty_cons, <- str_app_assoc.
    apply IH. by rewrite lookup_alter_eq, Hc.
Qed.

Lemma files_after_writes_other (f g : string) (texts : list string)
    (fs : gmap string string) :
  f <> g ->
  files_after (Obj := Obj) (Cls := Cls) (map (FileWrite f) texts) fs !! g
  = fs !! g.
Proof.
  intros Hne. revert fs. induction texts as [|t texts IH]; intros fs; [done|].
  cbn [map files_after foldl apply_event].
  etrans; [apply IH|]. by rewrite lookup_alter_ne.
Qed.

Lemma config_writes_content n_pot pot_type pot_arg :
  String.concat "" (config_writes E n_pot pot_type pot_arg)
  = (("0 " +:+ str_int n_pot) +:+ newline)
    +:+ (space_ended (map str_int pot_type) +:+ newline)
    +:+ (space_ended (map (fmt_14g E) pot_arg) +:+ newline).
Proof.
  unfold config_writes, space_ended.
  rewrite concat_empty_cons, concat_empty_app, concat_empty_cons,
    concat_empty_app, !map_map.
  cbn [String.concat]. by rewrite !str_app_assoc.
Qed.

End ConfigureFile.

(** C2.  [savePotTypeArg] leaves in the file [config_filename] exactly three
    lines: ["0 "] followed by [n_pot]; the N type codes as decimal integers,
    each followed by one space; the K arguments in the ["%.14g"] format, each
    followed by one space.  Whatever the file held before is gone, and no
    other file changes.  (The ["%.14g"] format puts no newline in a
    number.) *)
Theorem savePotTypeArg_three_lines {Obj Cls Arg} (E : Env Obj Cls Arg)
    (config_filename : string) (n_pot : Z) (pot_type : list Z)
    (pot_arg : list Arg) (fs : gmap string string) :
  (forall a, no_newline (fmt_14g E a) = true) ->
  outcome (savePotTypeArg E config_filename n_pot pot_type pot_arg) = Ok tt
  /\ (exists content,
        files_after (log (savePotTypeArg E config_filename n_pot pot_type pot_arg))
          fs !! config_filename = Some content
        /\ lines content
           = ["0 " +:+ str_int n_pot;
              space_ended (map str_int pot_type);
              space_ended (map (fmt_14g E) pot_arg)])
  /\ (forall other, config_filename <> other ->
        files_after (log (savePotTypeArg E config_filename n_pot pot_type pot_arg))
          fs !! other = fs !! other).
Proof.
  intros Hfmt. rewrite savePotTypeArg_eq. cbn [outcome log fst snd].
  split; [done|]. split.
  - eexists. split.
    + rewrite files_after_cons. cbn [apply_event].
      apply (files_after_writes config_filename _ _ "").
      apply lookup_insert_eq.
    + change ("" +:+ ?s) with s. rewrite config_writes_content.
      apply lines_three.
      * apply (no_newline_app "0 "); [done|apply no_newline_str_int].
      * apply no_newline_space_ended, List.Forall_forall.
        intros s [t [<- _]]%in_map_iff. apply no_newline_str_int.
      * apply no_newline_space_ended, List.Forall_forall.
        intros s [a [<- _]]%in_map_iff. apply Hfmt.
  - intros other Hne. rewrite files_after_cons. cbn [apply_event].
    etrans; [by apply files_after_writes_other|].
    by rewrite lookup_insert_ne.
Qed.

Lemma savePotTypeArg_three_lines_witness :
  (forall a, no_newline (fmt_14g Demo.galpy a) = true)
  /\ exists content,
       files_after
         (log (savePotTypeArg Demo.galpy "out" 2%Z [7%Z; 17%Z]
                 [1%Z; 3%Z; 1%Z; 2%Z]))
         ({["out" := "old text"]} : gmap string string) !! "out" = Some content
       /\ lines content = ["0 2"; "7 17 "; "1 3 1 2 "].
Proof.
  split; [exact no_newline_str_int|].
  exact (proj1 (proj2 (savePotTypeArg_three_lines Demo.galpy "out" 2%Z
                         [7%Z; 17%Z] [1%Z; 3%Z; 1%Z; 2%Z]
                         {["out" := "old text"]} no_newline_str_int))).
Defined.

(** ** getPotInstance *)

Section Discovery.

Context {Obj Cls Arg : Type} (E : Env Obj Cls Arg).

Lemma getPotInstance_stages (name : string) :
  getPotInstance E name
  = '(m, i) ← candidate E name; i' ← support_tests E i; mret (m, i').
Proof.
  unfold getPotInstance, candidate. mstep.
  destruct (bool_decide (name ∈ potential_dir E) && str_contains "Potential" name);
    [|done].
  destruct (potential_getattribute E name) as [l|c|o|]; mstep; [| | |done].
  - unfold support_tests. mstep.
    destruct (_dim E (PList l)) as [d|e]; [|done].
    by destruct (_check_c E _) as [b|e].
  - destruct (new_instance E c) as [o|e]; cbn [try_except].
    + unfold support_tests. mstep.
      destruct (_dim E (PObj o)) as [d|e]; [|done].
      by destruct (_check_c E _) as [b|e].
    + by destruct (caught_by_getPotInstance e).
  - unfold support_tests. mstep.
    destruct (_dim E (PObj o)) as [d|e]; [|done].
    by destruct (_check_c E _) as [b|e].
Qed.

(** The first stage calls neither probe. *)
Lemma candidate_log (name : string) (ev : event Obj Cls) :
  In ev (log (candidate E name)) ->
  ev = CallDir \/ ev = CallGetattribute name \/ exists c, ev = CallNew c.
Proof.
  unfold candidate. mstep.
  destruct (bool_decide (name ∈ potential_dir E) && str_contains "Potential" name);
    [|cbn; naive_solver].
  destruct (potential_getattribute E name) as [l|c|o|]; mstep;
    [cbn; naive_solver| |cbn; naive_solver|cbn; naive_solver].
  destruct (new_instance E c) as [o|e]; cbn [try_except];
    [|destruct (caught_by_getPotInstance e)]; cbn; naive_solver.
Qed.

Lemma support_tests_kept (inst inst' : Pot Obj) :
  outcome (support_tests E inst) = Ok inst' ->
  inst' <> PNone ->
  inst' = inst /\ _dim E inst = Ok (Some 3%Z) /\ _check_c E inst = Ok true.
Proof.
  unfold support_tests.
  destruct inst as [|o|l]; mstep; [cbn; congruence| |].
  all: match goal with |- context [_dim E ?p] =>
         destruct (_dim E p) as [d|e] eqn:Hd; mstep; [|done] end.
  all: unfold ne_3; case_bool_decide as Hd3; cbn [negb].
  all: match goal with |- context [_check_c E ?p] =>
         destruct (_check_c E p) as [[]|e] eqn:Hc; cbn; try congruence end.
  all: intros [= <-] _; by subst d.
Qed.

Lemma support_tests_rejected_dim (inst : Pot Obj) (d : option Z) :
  inst <> PNone ->
  _dim E inst = Ok d ->
  d <> Some 3%Z ->
  support_tests E inst
  = ([CallDim inst; CallCheckC PNone],
     match _check_c E PNone with
     | Ok _ => Ok PNone
     | Raise e => Raise e
     end).
Proof.
  intros Hi Hd Hd3. unfold support_tests.
  destruct inst as [|o|l]; [done| |]; mstep; rewrite Hd; mstep.
  all: unfold ne_3; rewrite bool_decide_false by done; cbn [negb].
  all: by destruct (_check_c E PNone) as [[]|e].
Qed.

Lemma support_tests_dim_call (inst p : Pot Obj) :
  In (CallDim p) (log (support_tests E inst)) -> p = inst /\ inst <> PNone.
Proof.
  unfold support_tests.
  destruct inst as [|o|l]; mstep; [cbn; tauto| |].
  all: match goal with |- context [_dim E ?q] =>
         destruct (_dim E q) as [d|e]; mstep end.
  all: try match goal with |- context [_check_c E ?q] =>
         destruct (_check_c E q) as [b|e] end.
  all: cbn; naive_solver.
Qed.

Lemma support_tests_rejected_c (inst p : Pot Obj) :
  In (CallCheckC p) (log (support_tests E inst)) ->
  _check_c E p = Ok false ->
  outcome (support_tests E inst) = Ok PNone.
Proof.
  unfold support_tests.
  destruct inst as [|o|l]; mstep; [cbn; tauto| |].
  all: match goal with |- context [_dim E ?q] =>
         destruct (_dim E q) as [d|e]; mstep; [|cbn; naive_solver] end.
  all: destruct (ne_3 d).
  all: match goal with |- context [_check_c E ?q] =>
         destruct (_check_c E q) as [b|e] eqn:Hc end.
  all: cbn; intros [[= <-]|[[= <-]|[]]] Hf; rewrite Hf in Hc; by simplify_eq.
Qed.

(** A probe in the log of [getPotInstance] was called by the second stage,
    on the candidate the first stage returned. *)
Lemma getPotInstance_probe_call (name : string) (ev : event Obj Cls) :
  In ev (log (getPotInstance E name)) ->
  (exists p, ev = CallDim p \/ ev = CallCheckC p) ->
  exists m i, candidate E name = (log (candidate E name), Ok (m, i))
              /\ In ev (log (support_tests E i))
              /\ getPotInstance E name
                 = (log (candidate E name) ++ log (support_tests E i),
                    match outcome (support_tests E i) with
                    | Ok i' => Ok (m, i')
                    | Raise e => Raise e
                    end).
Proof.
  rewrite getPotInstance_stages. intros Hin Hev.
  pose proof (candidate_log name ev) as Hc.
  destruct (candidate E name) as [w [[m i]|e]] eqn:Hcand; cbn [log fst] in *.
  - exists m, i. split; [done|].
    unfold mbind, M_bind in *.
    destruct (support_tests E i) as [w' [i'|e']]; cbn in *;
      rewrite ?app_nil_r in *.
    all: split; [|done].
    all: apply in_app_iff in Hin as [Hin|Hin]; [|done].
    all: exfalso; destruct (Hc Hin), Hev; naive_solver.
  - exfalso. cbn in Hin. destruct (Hc Hin), Hev; naive_solver.
Qed.

End Discovery.

(** C4.  [getPotInstance] gives an instance other than [None] only when the
    dimension probe reported 3 for it and the C support probe reported true;
    and it returns [None] as the instance whenever the dimension probe it
    called reported something else than 3 (the C support probe, then called
    on [None], giving any answer [b]) or the C support probe it called
    reported false. *)
Theorem getPotInstance_supported_only {Obj Cls Arg} (E : Env Obj Cls Arg)
    (name : string) :
  (forall m inst,
     outcome (getPotInstance E name) = Ok (m, inst) -> inst <> PNone ->
     _dim E inst = Ok (Some 3%Z) /\ _check_c E inst = Ok true)
  /\ (forall p d b,
        In (CallDim p) (log (getPotInstance E name)) ->
        _dim E p = Ok d -> d <> Some 3%Z -> _check_c E PNone = Ok b ->
        exists m, outcome (getPotInstance E name) = Ok (m, PNone))
  /\ (forall p,
        In (CallCheckC p) (log (getPotInstance E name)) ->
        _check_c E p = Ok false ->
        exists m, outcome (getPotInstance E name) = Ok (m, PNone)).
Proof.
  split; [|split].
  - intros m inst. rewrite getPotInstance_stages.
    intros [[m0 i0] [_ H]]%bind_ok_inv Hne.
    apply bind_ok_inv in H as [i' [Hs [= <- <-]]].
    by destruct (support_tests_kept E _ _ Hs Hne) as [<- ?].
  - intros p d b Hin Hd Hd3 Hb.
    destruct (getPotInstance_probe_call E name _ Hin) as (m & i & _ & Hi & ->);
      [by eauto|].
    apply support_tests_dim_call in Hi as [-> Hi].
    rewrite (support_tests_rejected_dim E _ _ Hi Hd Hd3), Hb. by exists m.
  - intros p Hin Hc.
    destruct (getPotInstance_probe_call E name _ Hin) as (m & i & _ & Hi & ->);
      [by eauto|].
    rewrite (support_tests_rejected_c E _ _ Hi Hc). by exists m.
Qed.

Lemma getPotInstance_supported_only_witness :
  (In (CallDim (PObj Demo.Planar))
      (log (getPotInstance Demo.galpy "PlanarPotential"))
   /\ _dim Demo.galpy (PObj Demo.Planar) = Ok (Some 2%Z)
   /\ Some 2%Z <> Some 3%Z
   /\ _check_c Demo.galpy PNone = Ok false)
  /\ exists m, outcome (getPotInstance Demo.galpy "PlanarPotential") = Ok (m, PNone).
Proof.
  assert (In (CallDim (PObj Demo.Planar))
             (log (getPotInstance Demo.galpy "PlanarPotential"))) as Hin.
  { vm_compute. right. right. left. reflexivity. }
  split; [split; [exact Hin|split; [reflexivity|split; [discriminate|reflexivity]]]|].
  exact (proj1 (proj2 (getPotInstance_supported_only Demo.galpy "PlanarPotential"))
           (PObj Demo.Planar) (Some 2%Z) false Hin eq_refl ltac:(discriminate) eq_refl).
Defined.

(** C9.  The two tests are not chained by [elif]: when the dimension probe
    reports something else than 3 the instance becomes [None], and the C
    support probe is then called on that [None], as the last call before
    the return.  If the probe raises on [None] so does [getPotInstance]; it
    returns only if the probe answers on [None]. *)
Theorem getPotInstance_check_c_on_None {Obj Cls Arg} (E : Env Obj Cls Arg)
    (name : string) (p : Pot Obj) (d : option Z) :
  In (CallDim p) (log (getPotInstance E name)) ->
  _dim E p = Ok d ->
  d <> Some 3%Z ->
  last (log (getPotInstance E name)) = Some (CallCheckC PNone)
  /\ (forall e, _check_c E PNone = Raise e ->
        outcome (getPotInstance E name) = Raise e)
  /\ (forall r, outcome (getPotInstance E name) = Ok r ->
        exists b, _check_c E PNone = Ok b).
Proof.
  intros Hin Hd Hd3.
  destruct (getPotInstance_probe_call E name _ Hin) as (m & i & _ & Hi & ->);
    [by eauto|].
  apply support_tests_dim_call in Hi as [-> Hi].
  rewrite (support_tests_rejected_dim E _ _ Hi Hd Hd3).
  cbn [log outcome fst snd]. split; [|split].
  - change [CallDim i; CallCheckC PNone]
      with ([CallDim i] ++ [CallCheckC (Obj := Obj) (Cls := Cls) PNone]).
    by rewrite app_assoc, last_snoc.
  - by intros e ->.
  - intros r. destruct (_check_c E PNone) as [b|e]; [by eauto|done].
Qed.

Lemma getPotInstance_check_c_on_None_witness :
  (In (CallDim (PObj Demo.Planar))
      (log (getPotInstance Demo.galpy "PlanarPotential"))
   /\ _dim Demo.galpy (PObj Demo.Planar) = Ok (Some 2%Z)
   /\ Some 2%Z <> Some 3%Z)
  /\ last (log (getPotInstance Demo.galpy "PlanarPotential"))
     = Some (CallCheckC PNone).
Proof.
  assert (In (CallDim (PObj Demo.Planar))
             (log (getPotInstance Demo.galpy "PlanarPotential"))) as Hin.
  { vm_compute. right. right. left. reflexivity. }
  split; [split; [exact Hin|split; [reflexivity|discriminate]]|].
  exact (proj1 (getPotInstance_check_c_on_None Demo.galpy "PlanarPotential"
                  (PObj Demo.Planar) (Some 2%Z) Hin eq_refl ltac:(discriminate))).
Defined.

(** C7, as amended.  When the constructor of a candidate class raises
    [ValueError], [TypeError], [AttributeError] or [RuntimeWarning], the
    exception is caught, [getPotInstance] returns [None] for the module and
    for the instance, and the loop of [listPot] goes on with the names that
    are left, as if the candidate had not been there but for the three calls
    in the log. *)
Theorem getPotInstance_caught_failure {Obj Cls Arg} (E : Env Obj Cls Arg)
    (name : string) (c : Cls) (e : exn) :
  is_potential_name E name = true ->
  potential_getattribute E name = AClass c ->
  new_instance E c = Raise e ->
  caught_by_getPotInstance e = true ->
  getPotInstance E name
  = ([CallDir; CallGetattribute name; CallNew c], Ok (None, PNone))
  /\ forall rest,
       for_each (name :: rest) (listPot_body E)
       = ([CallDir; CallGetattribute name; CallNew c]
          ++ log (for_each rest (listPot_body E)),
          outcome (for_each rest (listPot_body E))).
Proof.
  unfold is_potential_name. intros Hn Ha Hnew He.
  assert (getPotInstance E name
          = ([CallDir; CallGetattribute name; CallNew c], Ok (None, PNone)))
    as Hget.
  { unfold getPotInstance. mstep. rewrite Hn, Ha. mstep.
    rewrite Hnew. cbn [try_except]. by rewrite He. }
  split; [done|].
  intros rest. rewrite for_each_cons.
  assert (listPot_body E name
          = ([CallDir; CallGetattribute name; CallNew c], Ok tt)) as ->.
  { unfold listPot_body. by rewrite Hget. }
  mstep. by destruct (for_each rest (listPot_body E)).
Qed.

Lemma getPotInstance_caught_failure_witness :
  (is_potential_name Demo.galpy "Potential" = true
   /\ potential_getattribute Demo.galpy "Potential" = AClass Demo.AbstractClass
   /\ new_instance Demo.galpy Demo.AbstractClass = Raise TypeError
   /\ caught_by_getPotInstance TypeError = true)
  /\ getPotInstance Demo.galpy "Potential"
     = ([CallDir; CallGetattribute "Potential"; CallNew Demo.AbstractClass],
        Ok (None, PNone)).
Proof.
  split; [repeat split; reflexivity|].
  exact (proj1 (getPotInstance_caught_failure Demo.galpy "Potential"
                  Demo.AbstractClass TypeError eq_refl eq_refl eq_refl eq_refl)).
Defined.

(** C7 as stated fails for an exception outside the four classes of the
    [except] clause: a constructor that raises [KeyError] ends
    [getPotInstance] and the scan of [listPot] with that exception, and the
    names that follow are not looked at. *)
Lemma getPotInstance_caught_failure_counterexample :
  ~ instantiation_failure_is_skipped
      (Demo.demo_env ["BrokenPotential"; "KeplerPotential"]) "BrokenPotential"
  /\ outcome (listPot (Demo.demo_env ["BrokenPotential"; "KeplerPotential"]))
     = Raise (OtherError "KeyError")
  /\ ~ In (CallGetattribute "KeplerPotential")
         (log (listPot (Demo.demo_env ["BrokenPotential"; "KeplerPotential"]))).
Proof.
  split; [|split].
  - intros H.
    specialize (H Demo.BrokenClass (OtherError "KeyError") eq_refl eq_refl eq_refl).
    discriminate H.
  - reflexivity.
  - vm_compute. intros H. repeat (destruct H as [H|H]; [discriminate H|]). exact H.
Qed.

(** ** getopt *)

Lemma do_shorts_length opts optstring shortopts args opts' args' :
  do_shorts opts optstring shortopts args = Ok (opts', args') ->
  length args' <= length args.
Proof.
  revert opts. induction optstring as [|opt optstring IH]; intros opts.
  - by intros [= _ <-].
  - cbn [do_shorts]. destruct (short_has_arg opt shortopts) as [[]|e];
      cbn [mbind result_bind]; [| |done].
    + case_bool_decide.
      * destruct args as [|a args]; [done|]. intros [= _ <-]. simpl. lia.
      * by intros [= _ <-].
    + apply IH.
Qed.

Lemma do_longs_length opts opt longopts args opts' args' :
  do_longs opts opt longopts args = Ok (opts', args') ->
  length args' <= length args.
Proof.
  unfold do_longs. destruct (split_at_eq opt) as [o optarg].
  destruct (long_has_args o longopts) as [[[] o']|e];
    cbn [mbind result_bind]; [| |done].
  - destruct optarg as [a|]; [by intros [= _ <-]|].
    destruct args as [|a args]; [done|]. intros [= _ <-]. simpl. lia.
  - destruct optarg as [a|]; [done|]. by intros [= _ <-].
Qed.

(** The loop of [getopt] never runs out of fuel: more fuel than the number
    of arguments changes nothing. *)
Lemma getopt_loop_fuel fuel opts args shortopts longopts :
  length args <= fuel ->
  getopt_loop fuel opts args shortopts longopts
  = getopt_loop (length args) opts args shortopts longopts.
Proof.
  remember (length args) as n eqn:Hn.
  revert fuel opts args Hn.
  induction n as [n IHn] using lt_wf_ind. intros fuel opts args Hn Hfuel.
  destruct args as [|a rest]; [by destruct fuel, n|].
  simpl in Hn. subst n. destruct fuel as [|fuel]; [lia|].
  cbn [getopt_loop].
  destruct (startswith "-" a && negb (bool_decide (a = "-"))); [|done].
  case_bool_decide; [done|].
  destruct (if startswith "--" a
            then do_longs opts (str_drop 2 a) longopts rest
            else do_shorts opts (str_drop 1 a) shortopts rest)
    as [[opts' args']|e] eqn:Hstep; cbn [mbind result_bind]; [|done].
  assert (length args' <= length rest) as Hlen.
  { destruct (startswith "--" a);
      [by eapply do_longs_length|by eapply do_shorts_length]. }
  rewrite (IHn (length args')) by (done || lia).
  symmetry. apply (IHn (length args')); (done || lia).
Qed.

Lemma do_shorts_earlier pre opts optstring shortopts args :
  do_shorts (pre ++ opts) optstring shortopts args
  = with_earlier_opts pre (do_shorts opts optstring shortopts args).
Proof.
  revert opts. induction optstring as [|opt optstring IH]; intros opts; [done|].
  cbn [do_shorts]. destruct (short_has_arg opt shortopts) as [[]|e];
    cbn [mbind result_bind]; [| |done].
  - case_bool_decide; [destruct args|]; cbn; by rewrite <- ?app_assoc.
  - by rewrite <- app_assoc, IH.
Qed.

Lemma do_longs_earlier pre opts opt longopts args :
  do_longs (pre ++ opts) opt longopts args
  = with_earlier_opts pre (do_longs opts opt longopts args).
Proof.
  unfold do_longs. destruct (split_at_eq opt) as [o optarg].
  destruct (long_has_args o longopts) as [[[] o']|e];
    cbn [mbind result_bind]; [| |done].
  - destruct optarg as [a|]; [|destruct args]; cbn; by rewrite <- ?app_assoc.
  - destruct optarg as [a|]; cbn; by rewrite <- ?app_assoc.
Qed.

Lemma getopt_loop_earlier fuel pre opts args shortopts longopts :
  getopt_loop fuel (pre ++ opts) args shortopts longopts
  = with_earlier_opts pre (getopt_loop fuel opts args shortopts longopts).
Proof.
  revert opts args. induction fuel as [|fuel IH]; intros opts args.
  - destruct args as [|a rest]; [done|]. cbn [getopt_loop].
    destruct (startswith "-" a && negb (bool_decide (a = "-"))); [|done].
    by case_bool_decide.
  - destruct args as [|a rest]; [done|]. cbn [getopt_loop].
    destruct (startswith "-" a && negb (bool_decide (a = "-"))); [|done].
    case_bool_decide; [done|].
    destruct (startswith "--" a).
    + rewrite do_longs_earlier.
      destruct (do_longs opts _ longopts rest) as [[o r]|e]; [|done].
      cbn [with_earlier_opts mbind result_bind]. apply IH.
    + rewrite do_shorts_earlier.
      destruct (do_shorts opts _ shortopts rest) as [[o r]|e]; [|done].
      cbn [with_earlier_opts mbind result_bind]. apply IH.
Qed.

(** The parser takes [-l]: it reports it as an option without argument and
    goes on with the other arguments. *)
Lemma getopt_l (argv : list string) :
  getopt ("-l" :: argv) shortargs longargs
  = with_earlier_opts [("-l", "")] (getopt argv shortargs longargs).
Proof.
  unfold getopt. cbn [length getopt_loop].
  change (getopt_loop (length argv) [("-l", "")] argv shortargs longargs
          = with_earlier_opts [("-l", "")]
              (getopt_loop (length argv) [] argv shortargs longargs)).
  apply (getopt_loop_earlier _ [("-l", "")] []).
Qed.

(** ** The command line *)

Section CommandLine.

Context {Obj Cls : Type}.
Local Abbreviation M := (M Obj Cls).

Lemma usage_eq : usage = (map Print usage_text, Ok tt) :> M unit.
Proof. done. Qed.

(** The first request for help ends the loop over the options. *)
Lemma handle_opts_help (opts : opts_t) (flag : bool) (fname : string) :
  existsb is_help opts = true ->
  handle_opts opts flag fname
  = (map Print usage_text, Raise (SystemExit 1)) :> M (bool * string).
Proof.
  revert flag fname. induction opts as [|[opt arg] opts IH]; intros flag fname;
    [done|].
  cbn [existsb handle_opts]. intros Hex.
  assert (is_help (opt, arg) = true ->
          str_contains opt "-d" = false /\ str_contains opt "-o" = false
          /\ opt ∈ ["-h"; "--help"]) as Hhead.
  { unfold is_help; cbn [fst].
    intros [Hh|Hh]%orb_true_iff; apply bool_decide_eq_true in Hh; subst opt;
      (split; [done|split; [done|set_solver]]). }
  apply orb_true_iff in Hex as [Hh|Hex].
  - destruct (Hhead Hh) as (-> & -> & Hin). by rewrite bool_decide_true.
  - destruct (str_contains opt "-d"); [by apply IH|].
    destruct (str_contains opt "-o"); [by apply IH|].
    case_bool_decide; [done|by apply IH].
Qed.

(** [-l] matches no branch of the loop over the options. *)
Lemma handle_opts_l (opts : opts_t) (flag : bool) (fname : string) :
  handle_opts (Obj := Obj) (Cls := Cls) (filter (fun oa => not_l oa = true) opts)
    flag fname
  = handle_opts opts flag fname.
Proof.
  revert flag fname. induction opts as [|[opt arg] opts IH]; intros flag fname;
    [done|].
  rewrite filter_cons. destruct (decide (opt = "-l")) as [->|Hl].
  - rewrite decide_False by (by vm_compute). cbn [handle_opts].
    change (str_contains "-l" "-d") with false.
    change (str_contains "-l" "-o") with false.
    rewrite bool_decide_false by set_solver. apply IH.
  - rewrite decide_True
      by (unfold not_l; cbn [fst]; by rewrite bool_decide_false).
    cbn [handle_opts]. rewrite !IH.
    destruct (str_contains opt "-d"); [done|].
    destruct (str_contains opt "-o"); [done|].
    by case_bool_decide.
Qed.

Lemma parse_command_line_l (argv : list string) :
  parse_command_line (Obj := Obj) (Cls := Cls) ("-l" :: argv)
  = parse_command_line argv.
Proof.
  unfold parse_command_line. rewrite getopt_l.
  destruct (getopt argv shortargs longargs) as [[opts rem]|e]; [|done].
  cbn [with_earlier_opts mbind result_bind app]. mstep.
  cbn [handle_opts].
  change (str_contains "-l" "-d") with false.
  change (str_contains "-l" "-o") with false.
  by rewrite bool_decide_false by set_solver.
Qed.

Lemma parse_command_line_help (argv : list string) opts remainder :
  getopt argv shortargs longargs = Ok (opts, remainder) ->
  existsb is_help opts = true ->
  parse_command_line (Obj := Obj) (Cls := Cls) argv
  = (map Print usage_text, Raise (SystemExit 1)).
Proof.
  intros Hg Hh. unfold parse_command_line. rewrite Hg. mstep.
  by rewrite (handle_opts_help _ _ _ Hh).
Qed.

End CommandLine.

(** C5, as amended.  Once galpy has been imported: when [-h] or [--help] is
    among the options the parser accepted, the script prints the usage text
    and ends with status 1; nothing else is printed and no call into the
    potential namespace is made, whatever the other options and arguments
    are. *)
Theorem help_exits_before_lookup {Obj Cls Arg} (E : Env Obj Cls Arg)
    (argv : list string) (opts : opts_t) (remainder : list string) :
  getopt argv shortargs longargs = Ok (opts, remainder) ->
  existsb is_help opts = true ->
  main (Some E) argv = (map Print usage_text, Raise (SystemExit 1))
  /\ exit_code (outcome (main (Some E) argv)) = 1%Z
  /\ (forall ev, In ev (log (main (Some E) argv)) ->
        exists text, ev = Print text).
Proof.
  intros Hg Hh.
  assert (main (Some E) argv = (map Print usage_text, Raise (SystemExit 1)))
    as ->.
  { unfold main, run. by rewrite (parse_command_line_help _ _ _ Hg Hh). }
  split; [done|]. split; [done|].
  intros ev [text [<- _]]%in_map_iff. by exists text.
Qed.

Lemma help_exits_before_lookup_witness :
  (getopt ["-d"; "-o"; "out"; "-h"; "KeplerPotential"] shortargs longargs
   = Ok ([("-d", ""); ("-o", "out"); ("-h", "")], ["KeplerPotential"])
   /\ existsb is_help [("-d", ""); ("-o", "out"); ("-h", "")] = true)
  /\ main (Some Demo.galpy) ["-d"; "-o"; "out"; "-h"; "KeplerPotential"]
     = (map Print usage_text, Raise (SystemExit 1)).
Proof.
  split; [split; reflexivity|].
  exact (proj1 (help_exits_before_lookup Demo.galpy
                  ["-d"; "-o"; "out"; "-h"; "KeplerPotential"]
                  [("-d", ""); ("-o", "out"); ("-h", "")] ["KeplerPotential"]
                  eq_refl eq_refl)).
Defined.

(** C5 as stated fails when galpy is not installed: the import is tried
    before the command line is read, so [-h] gives the message about galpy
    and status 2, not the usage text and status 1. *)
Lemma help_exits_before_lookup_counterexample :
  ~ help_exits_with_1 (None : option (Env Demo.obj Demo.cls Z)) ["-h"].
Proof.
  intros H. specialize (H [("-h", "")] [] eq_refl eq_refl). discriminate H.
Qed.

(** ** The listing *)

Section Listing.

Context {Obj Cls Arg : Type} (E : Env Obj Cls Arg).

(** A loop that ends well has run its body, with a good end, on every item. *)
Lemma for_each_ok_in {A} (l : list A) (body : A -> M Obj Cls unit) (x : A) :
  outcome (for_each l body) = Ok tt ->
  In x l ->
  outcome (body x) = Ok tt
  /\ exists pre post, log (for_each l body) = pre ++ log (body x) ++ post.
Proof.
  induction l as [|y l IH]; [done|].
  rewrite for_each_cons. intros Hok Hin.
  destruct (bind_ok_inv _ _ _ Hok) as [[] [Hy Hl]].
  rewrite (log_bind_ok _ _ _ Hy).
  destruct Hin as [->|Hin].
  - split; [done|]. by exists [], (log (for_each l body)).
  - destruct (IH Hl Hin) as [Hx (pre & post & ->)].
    split; [done|]. exists (log (body y) ++ pre), post.
    by rewrite <- !app_assoc.
Qed.

Lemma listPot_eq :
  listPot E
  = (log (printPotTitle (Obj := Obj) (Cls := Cls))
     ++ log (printSpliter (Obj := Obj) (Cls := Cls))
     ++ CallDir :: log (for_each (potential_dir E) (listPot_body E)),
     outcome (for_each (potential_dir E) (listPot_body E))).
Proof.
  unfold listPot. mstep.
  by destruct (for_each (potential_dir E) (listPot_body E)).
Qed.

Lemma listPot_body_supported (n : string) m inst :
  outcome (getPotInstance E n) = Ok (m, inst) ->
  inst <> PNone ->
  log (listPot_body E n)
  = log (getPotInstance E n) ++ log (printPotTypeArg E n m inst 0 false)
  /\ (outcome (listPot_body E n) = Ok tt ->
      exists r, outcome (printPotTypeArg E n m inst 0 false) = Ok r).
Proof.
  intros Hget Hne. unfold listPot_body.
  rewrite (log_bind_ok _ _ _ Hget), (outcome_bind_ok _ _ _ Hget).
  destruct inst as [|o|l]; [done| |].
  all: destruct (printPotTypeArg E n m _ 0 false) as [w [r|e]] eqn:Hp.
  all: cbn; rewrite ?app_nil_r; split; [done|]; by eauto.
Qed.

Lemma getPotInstance_list_module (n : string) m l :
  outcome (getPotInstance E n) = Ok (m, PList l) -> m = None.
Proof.
  rewrite getPotInstance_stages.
  intros [[m0 i0] [Hc H]]%bind_ok_inv.
  apply bind_ok_inv in H as [i' [Hs [= -> ->]]].
  destruct (support_tests_kept E _ _ Hs) as [Heq _]; [done|]. subst i0.
  revert Hc. unfold candidate. mstep.
  destruct (bool_decide (n ∈ potential_dir E) && str_contains "Potential" n);
    [|done].
  destruct (potential_getattribute E n) as [l'|c|o|]; mstep;
    [by intros [= <- _]| |done|done].
  destruct (new_instance E c) as [o|e]; cbn [try_except]; [done|].
  by destruct (caught_by_getPotInstance e).
Qed.

(** The last line printed for a combination shows its encoding. *)
Lemma printPotTypeArg_list_last (n : string) l off long r :
  outcome (printPotTypeArg E n None (PList l) off long) = Ok r ->
  exists pre,
    log (printPotTypeArg E n None (PList l) off long)
    = pre ++ [Print (listing_line (off + 4) "Combination: " (enc_of r))].
Proof.
  cbn [printPotTypeArg].
  set (loop := combine_loop _ l _).
  rewrite (outcome_bind_ok _ _ tt) by done.
  rewrite (log_bind_ok _ _ tt) by done.
  destruct loop as [w [[[[ta k] ts] az]|e]]; [|done].
  unfold print. mstep. cbn [outcome log fst snd]. intros [= <-].
  eexists. rewrite app_nil_r, app_assoc. done.
Qed.

Lemma show_potential_not_found name flag fname w1 m :
  getPotInstance E name = (w1, Ok (m, PNone)) ->
  show_potential E name flag fname
  = (w1 ++ Print (not_found_line name) :: log (listPot E),
     outcome (listPot E)).
Proof.
  intros Hget. unfold show_potential. rewrite Hget. mstep.
  by destruct (listPot E).
Qed.

Lemma show_potential_long name flag fname w1 m o n pot_type pot_args :
  getPotInstance E name = (w1, Ok (m, PObj o)) ->
  _parse_pot E (PObj o) = Ok (n, pot_type, pot_args) ->
  12 < length pot_args ->
  exists post,
    log (show_potential E name flag fname)
    = w1 ++ log (printPotTitle (Obj := Obj) (Cls := Cls))
      ++ CallParsePot (PObj o)
      :: Print (listing_line 0 name long_list_text) :: post.
Proof.
  intros Hget Hp Hlen. unfold show_potential.
  rewrite (bind_ok _ _ _ _ Hget). cbn [log fst].
  rewrite (log_bind_ok _ _ tt) by done.
  rewrite printPotTypeArg_obj.
  destruct pot_type as [|t ts].
  - rewrite (printSingle_untyped E _ _ _ _ _ _ Hp).
    rewrite (bool_decide_true (12 < length pot_args) Hlen).
    rewrite (bind_raise _ _ _ _ eq_refl). by exists [].
  - rewrite (printSingle_typed E _ _ _ _ _ _ _ Hp) by done.
    rewrite (bool_decide_true (12 < length pot_args) Hlen).
    rewrite (bind_ok _ _ _ _ eq_refl). cbn [log fst app]. by eexists.
Qed.

Lemma run_named argv w0 flag fname name rest :
  parse_command_line argv = (w0, Ok (flag, fname, name :: rest)) ->
  run E argv
  = (w0 ++ log (show_potential E name flag fname),
     outcome (show_potential E name flag fname)).
Proof. intros Hp. unfold run. by rewrite (bind_ok _ _ _ _ Hp). Qed.

End Listing.

(** C6, as amended.  When [getPotInstance] returns for the name given on the
    command line and the instance it returns is [None], the script prints the
    "not found" line with that name and then does what [listPot] does, ending
    as [listPot] ends.  When
    the listing completes the status is 0 and every supported potential of
    the namespace has its part in the output: a single potential one line,
    with its encoding when it has at most 12 arguments and with the "long
    argument list" text when it has more; a combination its lines, the last
    one with its encoding. *)
Theorem unknown_name_lists_supported {Obj Cls Arg} (E : Env Obj Cls Arg)
    (argv : list string) (w0 : list (event Obj Cls)) (flag : bool)
    (fname name : string) (rest : list string) (w1 : list (event Obj Cls))
    (m : option (ModRef Obj Cls)) :
  parse_command_line argv = (w0, Ok (flag, fname, name :: rest)) ->
  getPotInstance E name = (w1, Ok (m, PNone)) ->
  main (Some E) argv
  = (w0 ++ w1 ++ Print (not_found_line name) :: log (listPot E),
     outcome (listPot E))
  /\ (outcome (listPot E) = Ok tt ->
      exit_code (outcome (main (Some E) argv)) = 0%Z
      /\ forall n m' inst,
           In n (potential_dir E) ->
           outcome (getPotInstance E n) = Ok (m', inst) ->
           inst <> PNone ->
           (exists pre post,
              log (listPot E)
              = pre ++ log (printPotTypeArg E n m' inst 0 false) ++ post)
           /\ (forall o k pot_type pot_args,
                 inst = PObj o ->
                 _parse_pot E (PObj o) = Ok (k, pot_type, pot_args) ->
                 In (Print (listing_line 0 n
                              (if bool_decide (12 < length pot_args)
                               then long_list_text
                               else encoding E pot_type pot_args)))
                    (log (listPot E)))
           /\ (forall l r,
                 inst = PList l ->
                 outcome (printPotTypeArg E n None (PList l) 0 false) = Ok r ->
                 In (Print (listing_line 4 "Combination: " (enc_of r)))
                    (log (listPot E)))).
Proof.
  intros Hparse Hget.
  assert (main (Some E) argv
          = (w0 ++ w1 ++ Print (not_found_line name) :: log (listPot E),
             outcome (listPot E))) as Hmain.
  { unfold main. rewrite (run_named E _ _ _ _ _ _ Hparse).
    by rewrite (show_potential_not_found E _ _ _ _ _ Hget). }
  split; [done|]. intros Hok. split; [by rewrite Hmain, outcome_pair, Hok|].
  intros n m' inst Hin Hn Hne.
  assert (outcome (for_each (potential_dir E) (listPot_body E)) = Ok tt) as Hloop.
  { by rewrite listPot_eq in Hok. }
  destruct (for_each_ok_in _ _ n Hloop Hin) as [Hbody (pre & post & Hlog)].
  destruct (listPot_body_supported E n m' inst Hn Hne) as [Hb Hr].
  destruct (Hr Hbody) as [r Hprint].
  assert (exists pre post,
            log (listPot E)
            = pre ++ log (printPotTypeArg E n m' inst 0 false) ++ post)
    as (pre' & post' & Hlist).
  { exists (log (printPotTitle (Obj := Obj) (Cls := Cls))
            ++ log (printSpliter (Obj := Obj) (Cls := Cls))
            ++ CallDir :: pre ++ log (getPotInstance E n)), post.
    rewrite listPot_eq, log_pair, Hlog, Hb.
    generalize (log (printPotTitle (Obj := Obj) (Cls := Cls))).
    generalize (log (printSpliter (Obj := Obj) (Cls := Cls))).
    generalize (log (getPotInstance E n)).
    generalize (log (printPotTypeArg E n m' inst 0 false)).
    intros p g sp t. rewrite <- !app_assoc. cbn [app].
    by rewrite <- !app_assoc. }
  split; [by eauto|]. split.
  - intros o k pot_type pot_args -> Hp.
    rewrite Hlist, !in_app_iff. right. left.
    rewrite printPotTypeArg_obj in *.
    destruct pot_type as [|t ts].
    { by rewrite (printSingle_untyped E _ _ _ _ _ _ Hp) in Hprint. }
    rewrite (printSingle_typed E _ _ _ _ _ _ _ Hp) by done.
    rewrite andb_true_r. cbn. by auto.
  - intros l r' -> Hr'.
    assert (m' = None) as -> by by eapply getPotInstance_list_module.
    destruct (printPotTypeArg_list_last E _ _ _ _ _ Hr') as [pre'' Hlast].
    rewrite Hlist, Hlast, !in_app_iff. right. left. right. by left.
Qed.

Lemma unknown_name_lists_supported_witness :
  (parse_command_line (Obj := Demo.obj) (Cls := Demo.cls) ["Foo"]
   = ([], Ok (false, "", ["Foo"]))
   /\ getPotInstance Demo.galpy "Foo" = ([CallDir], Ok (None, PNone)))
  /\ main (Some Demo.galpy) ["Foo"]
     = ([] ++ [CallDir] ++ Print (not_found_line "Foo") :: log (listPot Demo.galpy),
        outcome (listPot Demo.galpy)).
Proof.
  split; [split; reflexivity|].
  exact (proj1 (unknown_name_lists_supported Demo.galpy ["Foo"] [] false ""
                  "Foo" [] [CallDir] None eq_refl eq_refl)).
Defined.

(** C6 as stated fails in three ways, shown on namespaces in the order of
    [dir()].  With [KeplerPotential] and [WidePotential] (13 arguments) in
    the namespace and the unknown name [Foo] on the command line, the listing
    completes but no printed text holds the encoding of [WidePotential]: its
    line has the "long argument list" text.  With [BrokenPotential] (a
    constructor that raises [KeyError]) and [KeplerPotential] in the
    namespace, the listing after [Foo] stops at [BrokenPotential] and the
    script ends with status 1; and the name [BrokenPotential] itself, which
    resolves to no supported instance, gets no "not found" line: the lookup
    raises, and the script ends with status 1. *)
Lemma unknown_name_lists_supported_counterexample :
  (~ lists_every_encoding
       (Demo.demo_env ["KeplerPotential"; "WidePotential"]) ["Foo"]
   /\ In (Print (listing_line 0 "WidePotential" long_list_text))
         (log (main (Some (Demo.demo_env ["KeplerPotential"; "WidePotential"]))
                 ["Foo"])))
  /\ ~ ends_well (Demo.demo_env ["BrokenPotential"; "KeplerPotential"]) ["Foo"]
  /\ (outcome (getPotInstance
                 (Demo.demo_env ["BrokenPotential"; "KeplerPotential"])
                 "BrokenPotential")
      = Raise (OtherError "KeyError")
      /\ ~ In (Print (not_found_line "BrokenPotential"))
              (log (main (Some (Demo.demo_env
                                  ["BrokenPotential"; "KeplerPotential"]))
                      ["BrokenPotential"]))
      /\ ~ ends_well (Demo.demo_env ["BrokenPotential"; "KeplerPotential"])
             ["BrokenPotential"]).
Proof.
  split; [split; [|vm_compute; tauto]|split; [|split; [|split]]].
  - intros H.
    destruct (H "WidePotential" (Some (MTypeOf Demo.Wide)) (PObj Demo.Wide)
                ("31:1.0,2.0,3.0,4.0,5.0,6.0,7.0,8.0,9.0,10.0,11.0,12.0,13.0",
                 1%Z, [31%Z],
                 [1; 2; 3; 4; 5; 6; 7; 8; 9; 10; 11; 12; 13]%Z))
      as [text [Hin Hc]];
      [right; by left|reflexivity|discriminate|reflexivity|].
    vm_compute in Hin.
    repeat (destruct Hin as [Hin|Hin];
            [try discriminate Hin; injection Hin as <-;
             vm_compute in Hc; discriminate Hc|]).
    exact Hin.
  - unfold ends_well. vm_compute. discriminate.
  - reflexivity.
  - vm_compute. intros Hin.
    repeat (destruct Hin as [Hin|Hin]; [discriminate Hin|]).
    exact Hin.
  - unfold ends_well. vm_compute. discriminate.
Qed.

(** ** The option -l *)

Lemma printPotTypeArg_long_list {Obj Cls Arg} (E : Env Obj Cls Arg)
    name m o off n pot_type pot_args :
  _parse_pot E (PObj o) = Ok (n, pot_type, pot_args) ->
  12 < length pot_args ->
  log (printPotTypeArg E name m (PObj o) off false)
  = [CallParsePot (PObj o); Print (listing_line off name long_list_text)].
Proof.
  intros Hp Hlen. rewrite printPotTypeArg_obj. destruct pot_type as [|t ts].
  - rewrite (printSingle_untyped E _ _ _ _ _ _ Hp).
    by rewrite (bool_decide_true (12 < length pot_args) Hlen).
  - rewrite (printSingle_typed E _ _ _ _ _ _ _ Hp) by done.
    by rewrite (bool_decide_true (12 < length pot_args) Hlen).
Qed.

(** C10, as amended.  The parser takes [-l] as an option without argument,
    and the loop over the options has no branch for it: the script does the
    same with [-l] in front of the command line as without it, and the same
    on a list of options as on that list without its [-l] entries.  Nothing
    sets [print_long_list]: a single potential (one that is no list) with
    more than 12 arguments gets the "long argument list" line and nothing
    else, in [printPotTypeArg] called without that flag and so in the script,
    [-l] given or not. *)
Theorem option_l_changes_nothing {Obj Cls Arg}
    (galpy : option (Env Obj Cls Arg)) (argv : list string) :
  getopt ("-l" :: argv) shortargs longargs
  = with_earlier_opts [("-l", "")] (getopt argv shortargs longargs)
  /\ main galpy ("-l" :: argv) = main galpy argv
  /\ (forall opts flag fname,
        handle_opts (Obj := Obj) (Cls := Cls)
          (filter (fun oa => not_l oa = true) opts) flag fname
        = handle_opts opts flag fname)
  /\ (forall E name m o off n pot_type pot_args,
        galpy = Some E ->
        _parse_pot E (PObj o) = Ok (n, pot_type, pot_args) ->
        12 < length pot_args ->
        log (printPotTypeArg E name m (PObj o) off false)
        = [CallParsePot (PObj o); Print (listing_line off name long_list_text)])
  /\ (forall E w0 flag fname name rest w1 m o n pot_type pot_args,
        galpy = Some E ->
        parse_command_line argv = (w0, Ok (flag, fname, name :: rest)) ->
        getPotInstance E name = (w1, Ok (m, PObj o)) ->
        _parse_pot E (PObj o) = Ok (n, pot_type, pot_args) ->
        12 < length pot_args ->
        exists post,
          log (main galpy ("-l" :: argv))
          = w0 ++ w1 ++ log (printPotTitle (Obj := Obj) (Cls := Cls))
            ++ CallParsePot (PObj o)
            :: Print (listing_line 0 name long_list_text) :: post).
Proof.
  assert (main galpy ("-l" :: argv) = main galpy argv) as Hmain.
  { destruct galpy as [E|]; [|done].
    unfold main, run. by rewrite parse_command_line_l. }
  split; [apply getopt_l|]. split; [done|].
  split; [apply handle_opts_l|]. split.
  - intros E name m o off n pot_type pot_args _.
    apply printPotTypeArg_long_list.
  - intros E w0 flag fname name rest w1 m o n pot_type pot_args -> Hparse Hget
      Hp Hlen.
    rewrite Hmain. unfold main. rewrite (run_named E _ _ _ _ _ _ Hparse).
    destruct (show_potential_long E name flag fname _ _ _ _ _ _ Hget Hp Hlen)
      as [post ->].
    by exists post.
Qed.

Lemma option_l_changes_nothing_witness :
  (parse_command_line (Obj := Demo.obj) (Cls := Demo.cls) ["WidePotential"]
   = ([], Ok (false, "", ["WidePotential"]))
   /\ getPotInstance Demo.galpy "WidePotential"
      = ([CallDir; CallGetattribute "WidePotential"; CallDim (PObj Demo.Wide);
          CallCheckC (PObj Demo.Wide)],
         Ok (Some (MTypeOf Demo.Wide), PObj Demo.Wide))
   /\ _parse_pot Demo.galpy (PObj Demo.Wide)
      = Ok (1%Z, [31%Z], [1; 2; 3; 4; 5; 6; 7; 8; 9; 10; 11; 12; 13]%Z)
   /\ 12 < length [1; 2; 3; 4; 5; 6; 7; 8; 9; 10; 11; 12; 13]%Z)
  /\ exists post,
       log (main (Some Demo.galpy) ["-l"; "WidePotential"])
       = [] ++ [CallDir; CallGetattribute "WidePotential";
                CallDim (PObj Demo.Wide); CallCheckC (PObj Demo.Wide)]
         ++ log (printPotTitle (Obj := Demo.obj) (Cls := Demo.cls))
         ++ CallParsePot (PObj Demo.Wide)
         :: Print (listing_line 0 "WidePotential" long_list_text) :: post.
Proof.
  assert (12 < length [1; 2; 3; 4; 5; 6; 7; 8; 9; 10; 11; 12; 13]%Z) as Hlen.
  { simpl. lia. }
  split; [split; [reflexivity|split; [reflexivity|split; [reflexivity|exact Hlen]]]|].
  exact (proj2 (proj2 (proj2 (proj2
           (option_l_changes_nothing (Some Demo.galpy) ["WidePotential"]))))
           Demo.galpy [] false "" "WidePotential" [] _ _ Demo.Wide 1%Z [31%Z]
           [1; 2; 3; 4; 5; 6; 7; 8; 9; 10; 11; 12; 13]%Z
           eq_refl eq_refl eq_refl eq_refl Hlen).
Defined.

(** C10 as stated fails for a combination: the branch of a list prints the
    "Combination:" line with no test on the number of arguments.  With
    [MWPotential] a list of seven Kepler potentials (14 arguments), the
    script shows the whole encoding and no "long argument list" line, with
    [-l] and without. *)
Lemma option_l_changes_nothing_counterexample :
  outcome (getPotInstance Demo.galpy_long_list "MWPotential")
  = Ok (None, PList Demo.seven_keplers)
  /\ ~ long_list_gets_placeholder Demo.galpy_long_list ["-l"; "MWPotential"]
  /\ ~ long_list_gets_placeholder Demo.galpy_long_list ["MWPotential"]
  /\ In (Print (listing_line 4 "Combination: "
                  "7:1.0,3.0|7:1.0,3.0|7:1.0,3.0|7:1.0,3.0|7:1.0,3.0|7:1.0,3.0|7:1.0,3.0"))
        (log (main (Some Demo.galpy_long_list) ["-l"; "MWPotential"])).
Proof.
  assert (forall argv,
            parse_command_line (Obj := Demo.obj) (Cls := Demo.cls) argv
            = ([], Ok (false, "", ["MWPotential"])) ->
            ~ In (Print (listing_line 0 "MWPotential" long_list_text))
                 (log (main (Some Demo.galpy_long_list) argv)) ->
            ~ long_list_gets_placeholder Demo.galpy_long_list argv) as Hno.
  { intros argv Hparse Hnot H. apply Hnot.
    refine (proj1 (H [] false "" "MWPotential" [] None
                     (PList Demo.seven_keplers)
                     ("7:1.0,3.0|7:1.0,3.0|7:1.0,3.0|7:1.0,3.0|7:1.0,3.0|7:1.0,3.0|7:1.0,3.0",
                      7%Z, repeat 7%Z 7, concat (repeat [1%Z; 3%Z] 7))
                     Hparse _ _ _ _));
      [reflexivity|discriminate|reflexivity|vm_compute; lia]. }
  split; [reflexivity|]. split; [|split].
  - apply Hno; [reflexivity|]. vm_compute. intros Hin.
    repeat (destruct Hin as [Hin|Hin]; [discriminate Hin|]). exact Hin.
  - apply Hno; [reflexivity|]. vm_compute. intros Hin.
    repeat (destruct Hin as [Hin|Hin]; [discriminate Hin|]). exact Hin.
  - vm_compute. tauto.
Qed.

(** * Further properties *)

(** ** Invariants of the log *)

Section LogFacts.

Context {Obj Cls : Type}.
Local Abbreviation M := (M Obj Cls).

Lemma log_bind_Forall {A B} (P : event Obj Cls -> Prop) (m : M A)
    (k : A -> M B) :
  Forall P (log m) ->
  (forall a, outcome m = Ok a -> Forall P (log (k a))) ->
  Forall P (log (m ≫= k)).
Proof.
  destruct m as [w [a|e]]; intros Hm Hk; [|done].
  rewrite (bind_ok _ k w a eq_refl), log_pair.
  apply Forall_app. split; [done|]. by apply Hk.
Qed.

Lemma log_for_each_Forall {A} (P : event Obj Cls -> Prop) (l : list A)
    (body : A -> M unit) :
  (forall x, In x l -> Forall P (log (body x))) ->
  Forall P (log (for_each l body)).
Proof.
  induction l as [|x l IH]; intros H; [by constructor|].
  rewrite for_each_cons. apply log_bind_Forall; [apply H; by left|].
  intros _ _. apply IH. intros y Hy. apply H. by right.
Qed.

Lemma log_try_except_Forall {A} (P : event Obj Cls -> Prop) (m : M A)
    (classes : exn -> bool) (h : exn -> M A) :
  Forall P (log m) ->
  (forall e, Forall P (log (h e))) ->
  Forall P (log (try_except m classes h)).
Proof.
  destruct m as [w [a|e]]; intros Hm Hh; [done|].
  cbn [try_except]. destruct (classes e); [|done].
  specialize (Hh e). destruct (h e) as [w' r].
  rewrite log_pair in *. apply Forall_app. by split.
Qed.

Lemma log_combine_loop_Forall {Arg} (P : event Obj Cls -> Prop)
    (rec : Pot Obj -> M (string * Z * list Z * list Arg))
    (subs : list (Pot Obj)) acc :
  (forall sub, In sub subs -> Forall P (log (rec sub))) ->
  Forall P (log (combine_loop rec subs acc)).
Proof.
  revert acc. induction subs as [|sub subs IH]; intros acc H; [by constructor|].
  destruct acc as [[[ta n] ts] az]. cbn [combine_loop].
  apply log_bind_Forall; [apply H; by left|].
  intros [[[e n'] ts'] az'] _. apply IH. intros y Hy. apply H. by right.
Qed.

(** The result of a bind depends on the results of its two parts only. *)
Lemma outcome_bind_ext {A B} (m1 m2 : M A) (k1 k2 : A -> M B) :
  outcome m1 = outcome m2 ->
  (forall a, outcome (k1 a) = outcome (k2 a)) ->
  outcome (m1 ≫= k1) = outcome (m2 ≫= k2).
Proof.
  destruct m1 as [w1 [a1|e1]], m2 as [w2 [a2|e2]]; cbn [outcome snd];
    intros H Hk; simplify_eq; [|done].
  rewrite (bind_ok _ k1 w1 a2 eq_refl), (bind_ok _ k2 w2 a2 eq_refl).
  by rewrite !outcome_pair.
Qed.

Lemma for_each_app {A} (l1 l2 : list A) (body : A -> M unit) :
  for_each (l1 ++ l2) body = for_each l1 body ≫= fun _ => for_each l2 body.
Proof.
  induction l1 as [|x l1 IH].
  - cbn [app for_each]. mstep. by destruct (for_each l2 body).
  - cbn [app]. rewrite !for_each_cons, IH.
    destruct (body x) as [w [[]|e]]; [|done]. mstep.
    destruct (for_each l1 body) as [w1 [[]|e1]]; [|done]. mstep.
    destruct (for_each l2 body) as [w2 r2]. by rewrite app_assoc.
Qed.

(** A loop whose body ends well on every item: the logs in order. *)
Lemma for_each_all_ok {A} (l : list A) (body : A -> M unit) :
  (forall x, In x l -> outcome (body x) = Ok tt) ->
  for_each l body = (logs_of body l, Ok tt).
Proof.
  induction l as [|x l IH]; intros H; [done|].
  rewrite for_each_cons, IH by (intros y Hy; apply H; by right).
  rewrite (bind_ok _ _ (log (body x)) tt).
  - done.
  - rewrite <- (H x) by by left. apply surjective_M.
Qed.

(** A loop stops at the first item on which its body raises. *)
Lemma for_each_first_failure {A} (pre post : list A) (x : A)
    (body : A -> M unit) (e : exn) :
  (forall y, In y pre -> outcome (body y) = Ok tt) ->
  outcome (body x) = Raise e ->
  for_each (pre ++ x :: post) body
  = (logs_of body pre ++ log (body x), Raise e).
Proof.
  intros Hpre Hx. rewrite for_each_app, (for_each_all_ok pre) by done.
  mstep. rewrite for_each_cons, (outcome_bind_raise _ _ _ Hx). done.
Qed.

End LogFacts.

(** ** More on printPotTypeArg *)

Section PrintFacts.

Context {Obj Cls Arg : Type} (E : Env Obj Cls Arg).

Local Abbreviation tuple := (string * Z * list Z * list Arg)%type.

Lemma bind_raise_inv {A B} (m : M Obj Cls A) (k : A -> M Obj Cls B) e :
  outcome (m ≫= k) = Raise e ->
  outcome m = Raise e
  \/ exists a, outcome m = Ok a /\ outcome (k a) = Raise e.
Proof.
  destruct m as [w [a|e']].
  - rewrite (bind_ok _ k w a eq_refl), outcome_pair. intros H. right. by eauto.
  - rewrite (bind_raise _ k w e' eq_refl), outcome_pair. intros [= ->]. by left.
Qed.

Lemma log_bind_in_l {A B} (m : M Obj Cls A) (k : A -> M Obj Cls B) ev :
  In ev (log m) -> In ev (log (m ≫= k)).
Proof.
  destruct m as [w [a|e']]; [|done].
  rewrite (bind_ok _ k w a eq_refl), !log_pair, in_app_iff. by left.
Qed.

Lemma log_bind_in_r {A B} (m : M Obj Cls A) (k : A -> M Obj Cls B) a ev :
  outcome m = Ok a -> In ev (log (k a)) -> In ev (log (m ≫= k)).
Proof. intros Hm. rewrite (log_bind_ok _ _ _ Hm), in_app_iff. by right. Qed.

Lemma printSingle_outcome_display name p off long name' off' long' :
  outcome (printSingle E name p off long)
  = outcome (printSingle E name' p off' long').
Proof.
  destruct (_parse_pot E p) as [[[n ts] az]|e] eqn:Hp.
  - destruct ts as [|t ts].
    + by rewrite !(printSingle_untyped E _ _ _ _ _ _ Hp).
    + by rewrite !(printSingle_typed E _ _ _ _ _ _ _ Hp).
  - by rewrite !(printSingle_raise E _ _ _ _ _ Hp).
Qed.

Lemma printSingle_events name p off long :
  Forall (fun ev => is_print ev \/ ev = CallParsePot p)
    (log (printSingle E name p off long)).
Proof.
  destruct (_parse_pot E p) as [[[n ts] az]|e] eqn:Hp.
  - destruct ts as [|t ts].
    + rewrite (printSingle_untyped E _ _ _ _ _ _ Hp), log_pair.
      constructor; [by right|].
      destruct (_ && _); [|by constructor].
      constructor; [left; by eexists|by constructor].
    + rewrite (printSingle_typed E _ _ _ _ _ _ _ Hp), log_pair by done.
      constructor; [by right|].
      constructor; [left; by eexists|by constructor].
  - rewrite (printSingle_raise E _ _ _ _ _ Hp), log_pair.
    constructor; [by right|by constructor].
Qed.

Lemma printSingle_raises name p off long e :
  outcome (printSingle E name p off long) = Raise e ->
  _parse_pot E p = Raise e
  \/ (e = UnboundLocalError "type_arg"
      /\ exists n pot_args, _parse_pot E p = Ok (n, [], pot_args)).
Proof.
  destruct (_parse_pot E p) as [[[n ts] az]|e'] eqn:Hp.
  - destruct ts as [|t ts].
    + rewrite (printSingle_untyped E _ _ _ _ _ _ Hp), outcome_pair.
      intros [= <-]. right. by eauto.
    + by rewrite (printSingle_typed E _ _ _ _ _ _ _ Hp).
  - rewrite (printSingle_raise E _ _ _ _ _ Hp), outcome_pair.
    intros [= <-]. by left.
Qed.

Lemma printSingle_first_event name p off long :
  In (CallParsePot p) (log (printSingle E name p off long)).
Proof.
  unfold printSingle. apply log_bind_in_l. by left.
Qed.

Lemma combine_loop_outcome_ext (rec1 rec2 : Pot Obj -> M Obj Cls tuple)
    subs acc :
  (forall sub, In sub subs -> outcome (rec1 sub) = outcome (rec2 sub)) ->
  outcome (combine_loop rec1 subs acc) = outcome (combine_loop rec2 subs acc).
Proof.
  revert acc. induction subs as [|sub subs IH]; intros acc H; [done|].
  destruct acc as [[[ta n] ts] az]. cbn [combine_loop].
  apply outcome_bind_ext; [apply H; by left|].
  intros [[[e n'] ts'] az']. apply IH. intros y Hy. apply H. by right.
Qed.

Lemma combine_loop_raise_inv (rec : Pot Obj -> M Obj Cls tuple) subs acc e :
  outcome (combine_loop rec subs acc) = Raise e ->
  exists sub,
    In sub subs /\ outcome (rec sub) = Raise e
    /\ forall ev, In ev (log (rec sub)) ->
                  In ev (log (combine_loop rec subs acc)).
Proof.
  revert acc. induction subs as [|sub subs IH]; intros acc; [done|].
  destruct acc as [[[ta n] ts] az]. cbn [combine_loop].
  intros [Hs|[[[[e' n'] ts'] az'] [Hs Hrest]]]%bind_raise_inv.
  - exists sub. split; [by left|]. split; [done|].
    intros ev. apply log_bind_in_l.
  - destruct (IH _ Hrest) as (y & Hy & Hye & Hlog).
    exists y. split; [by right|]. split; [done|].
    intros ev Hev. eapply log_bind_in_r; [done|]. by apply Hlog.
Qed.

Lemma combine_loop_first_failure (rec : Pot Obj -> M Obj Cls tuple)
    pre rs sub post acc e :
  Forall2 (fun s r => outcome (rec s) = Ok r) pre rs ->
  outcome (rec sub) = Raise e ->
  combine_loop rec (pre ++ sub :: post) acc
  = (concat (map (fun s => log (rec s)) pre) ++ log (rec sub), Raise e).
Proof.
  intros Hpre Hsub. revert acc.
  induction Hpre as [|s r pre rs Hs _ IH]; intros acc.
  - destruct acc as [[[ta n] ts] az]. cbn [app combine_loop map concat].
    by rewrite (outcome_bind_raise _ _ _ Hsub).
  - destruct acc as [[[ta n] ts] az]. cbn [app combine_loop map concat].
    rewrite (bind_ok _ _ (log (rec s)) r)
      by (rewrite <- Hs; apply surjective_M).
    destruct r as [[[e' n'] ts'] az']. rewrite IH, log_pair, outcome_pair.
    by rewrite app_assoc.
Qed.

Lemma printPotTypeArg_events name m inst off long :
  Forall (fun ev => is_print ev
                    \/ (exists o, ev = CallParsePot (PObj o))
                    \/ (m <> None /\ ev = CallParsePot inst))
    (log (printPotTypeArg E name m inst off long)).
Proof.
  revert name m off long.
  induction inst as [|o|l IH] using Pot_nested_ind; intros name m off long.
  - destruct m; by constructor.
  - rewrite printPotTypeArg_obj.
    eapply Forall_impl; [apply printSingle_events|].
    intros ev [H1| ->]; [by left|right; left; by eexists].
  - destruct m as [mr|].
    + change (printPotTypeArg E name (Some mr) (PList l) off long)
        with (printSingle E name (PList l) off long).
      eapply Forall_impl; [apply printSingle_events|].
      intros ev [H1| ->]; [by left|right; right; done].
    + cbn [printPotTypeArg].
      apply log_bind_Forall;
        [constructor; [left; by eexists|by constructor]|].
      intros _ _. apply log_bind_Forall.
      * apply log_combine_loop_Forall. intros sub Hsub.
        rewrite List.Forall_forall in IH.
        eapply Forall_impl; [apply (IH sub Hsub)|].
        intros ev [H1|[H1|[Hne _]]]; [by left|right; by left|done].
      * intros [[[ta n] ts] az] _.
        constructor; [left; by eexists|by constructor].
Qed.

End PrintFacts.

(** X1.  What [printPotTypeArg] returns (the tuple, or the exception) does
    not depend on the name shown, on the offset of the lines, or on
    [print_long_list]: these change what is printed only. *)
Theorem printPotTypeArg_result_display_independent {Obj Cls Arg}
    (E : Env Obj Cls Arg) (inst : Pot Obj) (m : option (ModRef Obj Cls))
    (name name' : string) (off off' : nat) (long long' : bool) :
  outcome (printPotTypeArg E name m inst off long)
  = outcome (printPotTypeArg E name' m inst off' long').
Proof.
  revert m name name' off off' long long'.
  induction inst as [|o|l IH] using Pot_nested_ind;
    intros m name name' off off' long long'.
  - by destruct m.
  - rewrite !printPotTypeArg_obj. apply printSingle_outcome_display.
  - destruct m as [mr|].
    + change (outcome (printSingle E name (PList l) off long)
              = outcome (printSingle E name' (PList l) off' long')).
      apply printSingle_outcome_display.
    + cbn [printPotTypeArg].
      apply outcome_bind_ext; [done|]. intros _.
      apply outcome_bind_ext.
      * apply combine_loop_outcome_ext. intros sub Hsub.
        rewrite List.Forall_forall in IH. by apply IH.
      * by intros [[[ta n] ts] az].
Qed.

(** X2.  [printPotTypeArg] raises only what [_parse_pot] raised on an
    instance it was called on, or [UnboundLocalError] for an instance whose
    parse gave no type code. *)
Theorem printPotTypeArg_raises_only {Obj Cls Arg} (E : Env Obj Cls Arg)
    (inst : Pot Obj) (m : option (ModRef Obj Cls)) (name : string)
    (off : nat) (long : bool) (e : exn) :
  outcome (printPotTypeArg E name m inst off long) = Raise e ->
  exists p,
    In (CallParsePot p) (log (printPotTypeArg E name m inst off long))
    /\ (_parse_pot E p = Raise e
        \/ (e = UnboundLocalError "type_arg"
            /\ exists n pot_args, _parse_pot E p = Ok (n, [], pot_args))).
Proof.
  revert m name off long.
  induction inst as [|o|l IH] using Pot_nested_ind; intros m name off long.
  - by destruct m.
  - rewrite !printPotTypeArg_obj. intros H. exists (PObj o).
    split; [apply printSingle_first_event|by apply printSingle_raises in H].
  - destruct m as [mr|].
    + change (printPotTypeArg E name (Some mr) (PList l) off long)
        with (printSingle E name (PList l) off long).
      intros H. exists (PList l).
      split; [apply printSingle_first_event|by apply printSingle_raises in H].
    + cbn [printPotTypeArg].
      intros [H|[[] [_ H]]]%bind_raise_inv; [done|].
      apply bind_raise_inv in H as [H|[[[[ta n] ts] az] [_ H]]]; [|done].
      destruct (combine_loop_raise_inv _ _ _ _ H) as (sub & Hsub & Hr & Hlog).
      rewrite List.Forall_forall in IH.
      destruct (IH sub Hsub _ _ _ _ Hr) as (p & Hp & Hcase).
      exists p. split; [|done].
      eapply log_bind_in_r; [done|]. apply log_bind_in_l. by apply Hlog.
Qed.

Lemma printPotTypeArg_raises_only_witness :
  outcome (printPotTypeArg Demo.galpy "Mixed" None
             (PList [PObj Demo.Kepler; PList [PObj Demo.Untyped]]) 0 false)
  = Raise (UnboundLocalError "type_arg")
  /\ exists p,
       In (CallParsePot p)
          (log (printPotTypeArg Demo.galpy "Mixed" None
                  (PList [PObj Demo.Kepler; PList [PObj Demo.Untyped]]) 0 false))
       /\ (_parse_pot Demo.galpy p = Raise (UnboundLocalError "type_arg")
           \/ (UnboundLocalError "type_arg" = UnboundLocalError "type_arg"
               /\ exists n pot_args,
                    _parse_pot Demo.galpy p = Ok (n, [], pot_args))).
Proof.
  split; [reflexivity|].
  exact (printPotTypeArg_raises_only Demo.galpy
           (PList [PObj Demo.Kepler; PList [PObj Demo.Untyped]]) None "Mixed"
           0 false (UnboundLocalError "type_arg") eq_refl).
Defined.

(** X3.  On what [getPotInstance] returned, [printPotTypeArg] hands only
    single objects to [_parse_pot]: a list is taken apart by the script, down
    to its objects, and never parsed as a whole. *)
Theorem script_parses_objects_only {Obj Cls Arg} (E : Env Obj Cls Arg)
    (name : string) (m : option (ModRef Obj Cls)) (inst : Pot Obj)
    (off : nat) (long : bool) (p : Pot Obj) :
  outcome (getPotInstance E name) = Ok (m, inst) ->
  In (CallParsePot p) (log (printPotTypeArg E name m inst off long)) ->
  exists o, p = PObj o.
Proof.
  intros Hget Hin.
  pose proof (printPotTypeArg_events E name m inst off long) as Hev.
  rewrite List.Forall_forall in Hev.
  destruct (Hev _ Hin) as [[text H]|[[o H]|[Hm H]]]; [done|by simplify_eq; eauto|].
  injection H as ->. destruct inst as [|o|l]; [by destruct m|by eauto|].
  by rewrite (getPotInstance_list_module E _ _ _ Hget) in Hm.
Qed.

Lemma script_parses_objects_only_witness :
  (outcome (getPotInstance Demo.galpy "MWPotential")
   = Ok (None, PList [PObj Demo.Kepler; PObj Demo.Plummer])
   /\ In (CallParsePot (PObj Demo.Plummer))
         (log (printPotTypeArg Demo.galpy "MWPotential" None
                 (PList [PObj Demo.Kepler; PObj Demo.Plummer]) 0 false)))
  /\ exists o, PObj Demo.Plummer = PObj o.
Proof.
  assert (In (CallParsePot (PObj Demo.Plummer))
             (log (printPotTypeArg Demo.galpy "MWPotential" None
                     (PList [PObj Demo.Kepler; PObj Demo.Plummer]) 0 false)))
    as Hin.
  { vm_compute. right. right. right. left. reflexivity. }
  split; [split; [reflexivity|exact Hin]|].
  exact (script_parses_objects_only Demo.galpy "MWPotential" None _ 0 false
           (PObj Demo.Plummer) eq_refl Hin).
Defined.

(** X4.  A combination fails with its first failing component: when the
    components before it return and it raises [e], the call on the list
    raises [e]; the log is the headline, the logs of the components up to the
    failing one, and nothing more (no line for the combination, no call for
    the components that follow). *)
Theorem printPotTypeArg_combination_failure {Obj Cls Arg}
    (E : Env Obj Cls Arg) (name : string) (pre post : list (Pot Obj))
    (sub : Pot Obj) (off : nat) (long : bool)
    (rs : list (string * Z * list Z * list Arg)) (e : exn) :
  Forall2
    (fun s r =>
       outcome (printPotTypeArg E (type_name E s) None s (off + 4) long) = Ok r)
    pre rs ->
  outcome (printPotTypeArg E (type_name E sub) None sub (off + 4) long)
  = Raise e ->
  printPotTypeArg E name None (PList (pre ++ sub :: post)) off long
  = (Print (listing_line off name
              ("a combination of "
               +:+ str_int (Z.of_nat (length (pre ++ sub :: post)))
               +:+ " potentials:"))
     :: concat (map (fun s => log (printPotTypeArg E (type_name E s) None s
                                     (off + 4) long)) pre)
     ++ log (printPotTypeArg E (type_name E sub) None sub (off + 4) long),
     Raise e).
Proof.
  intros Hpre Hsub. cbn [printPotTypeArg].
  rewrite (combine_loop_first_failure
             (fun s => printPotTypeArg E (type_name E s) None s (off + 4) long)
             pre rs sub post _ e Hpre Hsub).
  done.
Qed.

Lemma printPotTypeArg_combination_failure_witness :
  (Forall2
     (fun s r =>
        outcome (printPotTypeArg Demo.galpy (type_name Demo.galpy s) None s
                   (0 + 4) false) = Ok r)
     [PObj Demo.Kepler] [("7:1.0,3.0", 1%Z, [7%Z], [1%Z; 3%Z])]
   /\ outcome (printPotTypeArg Demo.galpy (type_name Demo.galpy (PObj Demo.Untyped))
                 None (PObj Demo.Untyped) (0 + 4) false)
      = Raise (UnboundLocalError "type_arg"))
  /\ outcome (printPotTypeArg Demo.galpy "Mixed" None
                (PList ([PObj Demo.Kepler] ++ PObj Demo.Untyped :: [PObj Demo.Plummer]))
                0 false)
     = Raise (UnboundLocalError "type_arg").
Proof.
  assert (Forall2
     (fun s r =>
        outcome (printPotTypeArg Demo.galpy (type_name Demo.galpy s) None s
                   (0 + 4) false) = Ok r)
     [PObj Demo.Kepler] [("7:1.0,3.0", 1%Z, [7%Z], [1%Z; 3%Z])]) as H.
  { repeat constructor. }
  split; [split; [exact H|reflexivity]|].
  exact (f_equal snd
           (printPotTypeArg_combination_failure Demo.galpy "Mixed"
              [PObj Demo.Kepler] [PObj Demo.Plummer] (PObj Demo.Untyped) 0 false
              _ (UnboundLocalError "type_arg") H eq_refl)).
Defined.

(** ** More on getPotInstance *)

(** Taking [getPotInstance] apart, case by case. *)
Ltac getPotInstance_cases E name :=
  unfold getPotInstance, is_potential_name; mstep;
  destruct (bool_decide (name ∈ potential_dir E)
            && str_contains "Potential" name) eqn:?;
    [destruct (potential_getattribute E name) as [?l|?c|?o|] eqn:?; mstep;
       [|match goal with
         | |- context [new_instance E ?c] =>
             destruct (new_instance E c) as [?o|?e] eqn:?; cbn [try_except];
               [|destruct (caught_by_getPotInstance _) eqn:?]
         end; mstep| |];
       try match goal with
         | |- context [_dim E ?p] =>
             destruct (_dim E p) as [?d|?e] eqn:?; mstep;
               [destruct (ne_3 _) eqn:?;
                match goal with
                | |- context [_check_c E ?q] =>
                    destruct (_check_c E q) as [[]|?e] eqn:?
                end|]
         end|];
  mstep; cbn [outcome log fst snd app negb].

(** X5.  What [getPotInstance] returns for a supported potential: a list
    comes with no module and is the list bound to the name; an object comes
    with the class of the name, which built it, or with its type when the
    name is bound to the object itself.  In each case the name is in the
    namespace and contains "Potential". *)
Theorem getPotInstance_result_shape {Obj Cls Arg} (E : Env Obj Cls Arg)
    (name : string) (m : option (ModRef Obj Cls)) (inst : Pot Obj) :
  outcome (getPotInstance E name) = Ok (m, inst) ->
  inst <> PNone ->
  is_potential_name E name = true
  /\ (forall l, inst = PList l ->
        m = None /\ potential_getattribute E name = AList l)
  /\ (forall o, inst = PObj o ->
        (exists c, m = Some (MClass c)
                   /\ potential_getattribute E name = AClass c
                   /\ new_instance E c = Ok o)
        \/ (m = Some (MTypeOf o) /\ potential_getattribute E name = AOther o)).
Proof.
  getPotInstance_cases E name; intros Hout Hne; simplify_eq;
    (split; [done|split; intros ? ?; simplify_eq; by eauto 6]).
Qed.

Lemma getPotInstance_result_shape_witness :
  (outcome (getPotInstance Demo.galpy "KeplerPotential")
   = Ok (Some (MClass Demo.KeplerClass), PObj Demo.Kepler)
   /\ PObj Demo.Kepler <> PNone)
  /\ is_potential_name Demo.galpy "KeplerPotential" = true.
Proof.
  split; [split; [reflexivity|discriminate]|].
  exact (proj1 (getPotInstance_result_shape Demo.galpy "KeplerPotential"
                  (Some (MClass Demo.KeplerClass)) (PObj Demo.Kepler)
                  eq_refl ltac:(discriminate))).
Defined.

(** X6.  [getPotInstance] raises only what galpy raised: the constructor of
    the class, with an exception outside the four caught classes, or one of
    the two probes it called. *)
Theorem getPotInstance_raises_only {Obj Cls Arg} (E : Env Obj Cls Arg)
    (name : string) (e : exn) :
  outcome (getPotInstance E name) = Raise e ->
  (exists c, potential_getattribute E name = AClass c
             /\ new_instance E c = Raise e
             /\ caught_by_getPotInstance e = false)
  \/ (exists p, In (CallDim p) (log (getPotInstance E name))
                /\ _dim E p = Raise e)
  \/ (exists p, In (CallCheckC p) (log (getPotInstance E name))
                /\ _check_c E p = Raise e).
Proof.
  getPotInstance_cases E name; intros Hout; simplify_eq.
  all: try (left; by eauto).
  all: try (right; left; eexists; split; [|eassumption]; cbn; by auto 10).
  all: right; right; eexists; split; [|eassumption]; cbn; by auto 10.
Qed.

Lemma getPotInstance_raises_only_witness :
  outcome (getPotInstance (Demo.demo_env ["BrokenPotential"]) "BrokenPotential")
  = Raise (OtherError "KeyError")
  /\ ((exists c,
         potential_getattribute (Demo.demo_env ["BrokenPotential"])
           "BrokenPotential" = AClass c
         /\ new_instance (Demo.demo_env ["BrokenPotential"]) c
            = Raise (OtherError "KeyError")
         /\ caught_by_getPotInstance (OtherError "KeyError") = false)
      \/ (exists p,
            In (CallDim p)
               (log (getPotInstance (Demo.demo_env ["BrokenPotential"])
                       "BrokenPotential"))
            /\ _dim (Demo.demo_env ["BrokenPotential"]) p
               = Raise (OtherError "KeyError"))
      \/ (exists p,
            In (CallCheckC p)
               (log (getPotInstance (Demo.demo_env ["BrokenPotential"])
                       "BrokenPotential"))
            /\ _check_c (Demo.demo_env ["BrokenPotential"]) p
               = Raise (OtherError "KeyError"))).
Proof.
  split; [reflexivity|].
  exact (getPotInstance_raises_only (Demo.demo_env ["BrokenPotential"])
           "BrokenPotential" (OtherError "KeyError") eq_refl).
Defined.

(** ** More on the command line *)

Lemma short_has_arg_raises opt shortopts e :
  short_has_arg opt shortopts = Raise e -> exists msg, e = GetoptError msg.
Proof.
  induction shortopts as [|c rest IH]; cbn [short_has_arg].
  - intros [= <-]. by eexists.
  - destruct (_ && _); [done|apply IH].
Qed.

Lemma do_shorts_raises opts optstring shortopts args e :
  do_shorts opts optstring shortopts args = Raise e ->
  exists msg, e = GetoptError msg.
Proof.
  revert opts. induction optstring as [|opt optstring IH]; intros opts; [done|].
  cbn [do_shorts].
  destruct (short_has_arg opt shortopts) as [[]|e'] eqn:Hs;
    cbn [mbind result_bind].
  - case_bool_decide; [|done]. destruct args; [|done].
    intros [= <-]. by eexists.
  - apply IH.
  - intros [= <-]. by eapply short_has_arg_raises.
Qed.

Lemma long_has_args_raises opt longopts e :
  long_has_args opt longopts = Raise e -> exists msg, e = GetoptError msg.
Proof.
  unfold long_has_args. destruct (filter _ longopts) as [|u others].
  - intros [= <-]. by eexists.
  - case_bool_decide; [done|]. case_bool_decide; [done|].
    destruct others; [done|]. intros [= <-]. by eexists.
Qed.

Lemma do_longs_raises opts opt longopts args e :
  do_longs opts opt longopts args = Raise e ->
  exists msg, e = GetoptError msg.
Proof.
  unfold do_longs. destruct (split_at_eq opt) as [o optarg].
  destruct (long_has_args o longopts) as [[[] o']|e'] eqn:Hl;
    cbn [mbind result_bind].
  - destruct optarg; [done|]. destruct args; [|done].
    intros [= <-]. by eexists.
  - destruct optarg; [|done]. intros [= <-]. by eexists.
  - intros [= <-]. by eapply long_has_args_raises.
Qed.

(** The parser raises nothing but [GetoptError]. *)
Lemma getopt_raises args shortopts longopts e :
  getopt args shortopts longopts = Raise e -> exists msg, e = GetoptError msg.
Proof.
  unfold getopt. generalize (length args) at 1. generalize (@nil (string * string)).
  intros opts fuel. revert opts args.
  induction fuel as [|fuel IH]; intros opts args.
  - destruct args as [|a rest]; [done|]. cbn [getopt_loop].
    destruct (_ && _); [|done]. by case_bool_decide.
  - destruct args as [|a rest]; [done|]. cbn [getopt_loop].
    destruct (_ && _); [|done]. case_bool_decide; [done|].
    destruct (startswith "--" a).
    + destruct (do_longs opts _ longopts rest) as [[o r]|e'] eqn:Hd;
        cbn [mbind result_bind]; [apply IH|].
      intros [= <-]. by eapply do_longs_raises.
    + destruct (do_shorts opts _ shortopts rest) as [[o r]|e'] eqn:Hd;
        cbn [mbind result_bind]; [apply IH|].
      intros [= <-]. by eapply do_shorts_raises.
Qed.

Section MoreCommandLine.

Context {Obj Cls : Type}.
Local Abbreviation M := (M Obj Cls).

Lemma handle_opts_app (opts1 opts2 : opts_t) flag fname :
  handle_opts (opts1 ++ opts2) flag fname
  = (handle_opts opts1 flag fname
     ≫= fun r => handle_opts opts2 r.1 r.2 : M (bool * string)).
Proof.
  revert flag fname. induction opts1 as [|[opt arg] opts1 IH]; intros flag fname.
  - cbn [app handle_opts]. mstep. cbn [fst snd].
    by destruct (handle_opts opts2 flag fname).
  - cbn [app handle_opts].
    destruct (str_contains opt "-d"); [apply IH|].
    destruct (str_contains opt "-o"); [apply IH|].
    case_bool_decide; [done|apply IH].
Qed.

(** Without a request for help the loop over the options prints nothing and
    returns. *)
Lemma handle_opts_no_help (opts : opts_t) flag fname :
  existsb is_help opts = false ->
  exists flag' fname',
    handle_opts opts flag fname = ([], Ok (flag', fname')) :> M (bool * string).
Proof.
  revert flag fname. induction opts as [|[opt arg] opts IH]; intros flag fname;
    [by eauto|].
  cbn [existsb handle_opts]. intros [Hh Hex]%orb_false_iff.
  destruct (str_contains opt "-d"); [by apply IH|].
  destruct (str_contains opt "-o"); [by apply IH|].
  case_bool_decide as Hin; [|by apply IH].
  exfalso. unfold is_help in Hh. cbn [fst] in Hh.
  apply orb_false_iff in Hh as [H1 H2].
  apply bool_decide_eq_false in H1, H2. set_solver.
Qed.

(** Options that are not taken as [-o] leave the file name as it is. *)
Lemma handle_opts_no_o (opts : opts_t) flag fname :
  existsb is_help opts = false ->
  existsb taken_as_o opts = false ->
  exists flag',
    handle_opts opts flag fname = ([], Ok (flag', fname)) :> M (bool * string).
Proof.
  revert flag. induction opts as [|[opt arg] opts IH]; intros flag;
    [by eauto|].
  cbn [existsb handle_opts]. unfold taken_as_o at 1. cbn [fst].
  intros [Hh Hex]%orb_false_iff [Ho Hno]%orb_false_iff.
  destruct (str_contains opt "-d"); [by apply IH|].
  cbn [negb andb] in Ho. rewrite Ho.
  case_bool_decide as Hin; [|by apply IH].
  exfalso. unfold is_help in Hh. cbn [fst] in Hh.
  apply orb_false_iff in Hh as [H1 H2].
  apply bool_decide_eq_false in H1, H2. set_solver.
Qed.

Lemma setup_text_eq :
  for_each setup_text (fun line => print [line])
  = (map Print setup_text, Ok tt) :> M unit.
Proof. unfold print. by rewrite for_each_emit. Qed.

End MoreCommandLine.

(** X7.  When the parser rejects the command line (an unknown option, an
    option [-o] without file name, [--help=x]), the script prints the message
    of the parser and the usage text and ends with status 2, without a call
    into galpy. *)
Theorem rejected_command_line_exits_2 {Obj Cls Arg} (E : Env Obj Cls Arg)
    (argv : list string) (e : exn) :
  getopt argv shortargs longargs = Raise e ->
  exists msg,
    e = GetoptError msg
    /\ main (Some E) argv
       = (Print msg :: map Print usage_text, Raise (SystemExit 2))
    /\ exit_code (outcome (main (Some E) argv)) = 2%Z.
Proof.
  intros Hg. destruct (getopt_raises _ _ _ _ Hg) as [msg ->].
  exists msg. split; [done|].
  assert (main (Some E) argv
          = (Print msg :: map Print usage_text, Raise (SystemExit 2))) as ->.
  { unfold main, run, parse_command_line. rewrite Hg. mstep.
    cbn [try_except]. by rewrite usage_eq. }
  done.
Qed.

Lemma rejected_command_line_exits_2_witness :
  getopt ["-d"; "-x"; "KeplerPotential"] shortargs longargs
  = Raise (GetoptError "option -x not recognized")
  /\ exists msg,
       GetoptError "option -x not recognized" = GetoptError msg
       /\ main (Some Demo.galpy) ["-d"; "-x"; "KeplerPotential"]
          = (Print msg :: map Print usage_text, Raise (SystemExit 2))
       /\ exit_code (outcome (main (Some Demo.galpy)
                                ["-d"; "-x"; "KeplerPotential"])) = 2%Z.
Proof.
  split; [reflexivity|].
  exact (rejected_command_line_exits_2 Demo.galpy
           ["-d"; "-x"; "KeplerPotential"] _ eq_refl).
Defined.

(** X8.  The options are read up to the first argument that is no option
    (one that does not start with a dash, or the lone dash): when the potential name comes
    first, what follows it is not read at all, so [-o], [-d] and [-h] behind
    the name have no effect. *)
Theorem arguments_after_name_ignored {Obj Cls Arg}
    (galpy : option (Env Obj Cls Arg)) (name : string) (rest : list string) :
  startswith "-" name = false \/ name = "-" ->
  parse_command_line (Obj := Obj) (Cls := Cls) (name :: rest)
  = ([], Ok (false, "", name :: rest))
  /\ main galpy (name :: rest) = main galpy [name].
Proof.
  intros Hname.
  assert (forall rest',
            parse_command_line (Obj := Obj) (Cls := Cls) (name :: rest')
            = ([], Ok (false, "", name :: rest'))) as Hparse.
  { intros rest'. unfold parse_command_line, getopt.
    cbn [length getopt_loop].
    assert (startswith "-" name && negb (bool_decide (name = "-")) = false)
      as ->; [|done].
    destruct Hname as [->| ->]; [done|]. by rewrite bool_decide_true. }
  split; [apply Hparse|].
  destruct galpy as [E|]; [|done].
  unfold main, run. by rewrite !Hparse.
Qed.

Lemma arguments_after_name_ignored_witness :
  (startswith "-" "KeplerPotential" = false \/ "KeplerPotential" = "-")
  /\ main (Some Demo.galpy) ["KeplerPotential"; "-o"; "out"; "-h"]
     = main (Some Demo.galpy) ["KeplerPotential"].
Proof.
  split; [left; reflexivity|].
  exact (proj2 (arguments_after_name_ignored (Some Demo.galpy)
                  "KeplerPotential" ["-o"; "out"; "-h"] (or_introl eq_refl))).
Defined.

(** X9.  Without a potential name the options [-d] and [-o] do nothing: the
    script prints the description of the set-up and then the listing, and
    ends as the listing ends, as it does with no argument at all. *)
Theorem no_name_ignores_options {Obj Cls Arg} (E : Env Obj Cls Arg)
    (argv : list string) (opts : opts_t) :
  getopt argv shortargs longargs = Ok (opts, []) ->
  existsb is_help opts = false ->
  main (Some E) argv
  = (map Print setup_text ++ log (listPot E), outcome (listPot E))
  /\ main (Some E) argv = main (Some E) [].
Proof.
  intros Hg Hh.
  assert (forall argv' opts',
            getopt argv' shortargs longargs = Ok (opts', []) ->
            existsb is_help opts' = false ->
            main (Some E) argv'
            = (map Print setup_text ++ log (listPot E), outcome (listPot E)))
    as Hmain.
  { intros argv' opts' Hg' Hh'. unfold main, run, parse_command_line.
    rewrite Hg'. mstep.
    destruct (handle_opts_no_help (Obj := Obj) (Cls := Cls) opts' false "" Hh')
      as (flag' & fname' & ->).
    mstep. cbn [try_except]. mstep. rewrite setup_text_eq. mstep.
    by destruct (listPot E). }
  split; [by eapply Hmain|].
  rewrite (Hmain argv opts Hg Hh). symmetry. by apply (Hmain [] []).
Qed.

Lemma no_name_ignores_options_witness :
  (getopt ["-d"; "-o"; "out"; "-l"] shortargs longargs
   = Ok ([("-d", ""); ("-o", "out"); ("-l", "")], [])
   /\ existsb is_help [("-d", ""); ("-o", "out"); ("-l", "")] = false)
  /\ main (Some Demo.galpy) ["-d"; "-o"; "out"; "-l"] = main (Some Demo.galpy) [].
Proof.
  split; [split; reflexivity|].
  exact (proj2 (no_name_ignores_options Demo.galpy ["-d"; "-o"; "out"; "-l"]
                  _ eq_refl eq_refl)).
Defined.

(** X10.  When [-o] is given several times the last file name is the one
    kept: after an option taken as [-o] with argument [f], followed by options
    none of which is taken as [-o], the loop over the options returns [f]. *)
Theorem last_option_o_wins {Obj Cls : Type} (opts1 opts2 : opts_t)
    (o f : string) (flag : bool) (fname : string) :
  existsb is_help (opts1 ++ (o, f) :: opts2) = false ->
  taken_as_o (o, f) = true ->
  existsb taken_as_o opts2 = false ->
  exists flag',
    handle_opts (Obj := Obj) (Cls := Cls) (opts1 ++ (o, f) :: opts2) flag fname
    = ([], Ok (flag', f)).
Proof.
  rewrite existsb_app. cbn [existsb].
  intros [H1 [Ho H2]%orb_false_iff]%orb_false_iff Hto Hno.
  rewrite handle_opts_app.
  destruct (handle_opts_no_help (Obj := Obj) (Cls := Cls) opts1 flag fname H1)
    as (flag1 & fname1 & ->).
  mstep. cbn [fst snd handle_opts].
  unfold taken_as_o in Hto. cbn [fst] in Hto.
  apply andb_true_iff in Hto as [Hnd Hco].
  apply negb_true_iff in Hnd. rewrite Hnd, Hco.
  destruct (handle_opts_no_o (Obj := Obj) (Cls := Cls) opts2 flag1 f H2 Hno)
    as (flag' & ->).
  by exists flag'.
Qed.

Lemma last_option_o_wins_witness :
  (existsb is_help ([("-o", "first")] ++ ("-o", "second") :: [("-d", "")]) = false
   /\ taken_as_o ("-o", "second") = true
   /\ existsb taken_as_o [("-d", "")] = false)
  /\ exists flag',
       handle_opts (Obj := Demo.obj) (Cls := Demo.cls)
         ([("-o", "first")] ++ ("-o", "second") :: [("-d", "")]) false ""
       = ([], Ok (flag', "second")).
Proof.
  split; [repeat split; reflexivity|].
  exact (last_option_o_wins [("-o", "first")] [("-d", "")] "-o" "second" false ""
           eq_refl eq_refl eq_refl).
Defined.

(** ** The files the script writes *)

Section Files.

Context {Obj Cls Arg : Type} (E : Env Obj Cls Arg).

Local Abbreviation no_file := (fun ev : event Obj Cls => file_of ev = None).

Lemma is_print_no_file (ev : event Obj Cls) : is_print ev -> file_of ev = None.
Proof. by intros [text ->]. Qed.

Lemma Forall_print_no_file (w : list (event Obj Cls)) :
  Forall is_print w -> Forall no_file w.
Proof.
  intros H. eapply Forall_impl; [exact H|]. intros ev. apply is_print_no_file.
Qed.

Lemma map_Print_is_print (l : list string) :
  Forall (is_print (Obj := Obj) (Cls := Cls)) (map Print l).
Proof.
  induction l as [|x l IH]; constructor; [by eexists|done].
Qed.

Lemma handle_opts_prints (opts : opts_t) flag fname :
  Forall is_print (log (handle_opts (Obj := Obj) (Cls := Cls) opts flag fname)).
Proof.
  revert flag fname. induction opts as [|[opt arg] opts IH]; intros flag fname;
    [by constructor|].
  cbn [handle_opts].
  destruct (str_contains opt "-d"); [apply IH|].
  destruct (str_contains opt "-o"); [apply IH|].
  case_bool_decide; [|apply IH].
  rewrite usage_eq. mstep. rewrite log_pair, app_nil_r.
  apply map_Print_is_print.
Qed.

Lemma parse_command_line_prints (argv : list string) :
  Forall is_print (log (parse_command_line (Obj := Obj) (Cls := Cls) argv)).
Proof.
  unfold parse_command_line.
  destruct (getopt argv shortargs longargs) as [[opts rem]|e] eqn:Hg.
  - mstep. pose proof (handle_opts_prints opts false "") as Hh.
    destruct (handle_opts opts false "") as [w [[flag fname]|e]].
    + mstep. cbn [try_except app]. rewrite log_pair in Hh.
      by rewrite log_pair, app_nil_r.
    + rewrite log_pair in Hh. mstep. cbn [try_except app].
      destruct e; try by rewrite log_pair.
      rewrite usage_eq. unfold print. mstep. rewrite log_pair, app_nil_r.
      apply Forall_app. split; [done|]. cbn [app].
      constructor; [by eexists|apply map_Print_is_print].
  - destruct (getopt_raises _ _ _ _ Hg) as [msg ->].
    mstep. cbn [try_except]. rewrite usage_eq. unfold print. mstep.
    rewrite log_pair. cbn [app].
    constructor; [by eexists|]. rewrite app_nil_r. apply map_Print_is_print.
Qed.

Lemma getPotInstance_no_file (name : string) :
  Forall no_file (log (getPotInstance E name)).
Proof. getPotInstance_cases E name; by repeat constructor. Qed.

Lemma printPotTypeArg_no_file name m inst off long :
  Forall no_file (log (printPotTypeArg E name m inst off long)).
Proof.
  eapply Forall_impl; [apply printPotTypeArg_events|].
  intros ev [[text ->]|[[o ->]|[_ ->]]]; done.
Qed.

Lemma listPot_body_no_file (name : string) :
  Forall no_file (log (listPot_body E name)).
Proof.
  unfold listPot_body.
  apply log_bind_Forall; [apply getPotInstance_no_file|].
  intros [m inst] _. destruct inst as [|o|l]; [by constructor| |].
  all: apply log_bind_Forall; [apply printPotTypeArg_no_file|].
  all: intros _ _; by constructor.
Qed.

Lemma listPot_no_file : Forall no_file (log (listPot E)).
Proof.
  rewrite listPot_eq, log_pair.
  constructor; [done|]. constructor; [done|]. constructor; [done|].
  apply log_for_each_Forall. intros x _. apply listPot_body_no_file.
Qed.

Lemma files_after_app (w1 w2 : list (event Obj Cls)) (fs : gmap string string) :
  files_after (w1 ++ w2) fs = files_after w2 (files_after w1 fs).
Proof. apply foldl_app. Qed.

(** A log without file event leaves the files as they are. *)
Lemma files_after_no_file (w : list (event Obj Cls)) (fs : gmap string string) :
  Forall no_file w -> files_after w fs = fs.
Proof.
  induction 1 as [|ev w Hev _ IH]; [done|].
  rewrite files_after_cons. by destruct ev.
Qed.

Lemma savePotTypeArg_file_lines (f : string) (n_pot : Z) (pot_type : list Z)
    (pot_arg : list Arg) (fs : gmap string string) :
  (forall a, no_newline (fmt_14g E a) = true) ->
  exists content,
    files_after (log (savePotTypeArg E f n_pot pot_type pot_arg)) fs !! f
    = Some content
    /\ lines content
       = ["0 " +:+ str_int n_pot;
          space_ended (map str_int pot_type);
          space_ended (map (fmt_14g E) pot_arg)].
Proof.
  intros Hfmt. rewrite savePotTypeArg_eq, log_pair.
  eexists. split.
  - rewrite files_after_cons. cbn [apply_event].
    apply (files_after_writes f _ _ ""). apply lookup_insert_eq.
  - change ("" +:+ ?s) with s. rewrite config_writes_content.
    apply lines_three.
    + apply (no_newline_app "0 "); [done|apply no_newline_str_int].
    + apply no_newline_space_ended, List.Forall_forall.
      intros s [t [<- _]]%in_map_iff. apply no_newline_str_int.
    + apply no_newline_space_ended, List.Forall_forall.
      intros s [a [<- _]]%in_map_iff. apply Hfmt.
Qed.

(** The lines of the documentation, behind the second separator. *)
Lemma documentation_part name (inst : Pot Obj) (flag : bool) :
  exists post,
    Forall is_print post
    /\ (if flag then
          print ["Class definition of " +:+ name +:+ " from Galpy:"];;
          match inst with
          | PList l =>
              for_each l (fun pot_sub =>
                print [doc E pot_sub];; print [init_doc E pot_sub])
          | _ => print [doc E inst];; print [init_doc E inst]
          end;;
          if bool_decide (name = "KeplerPotential") then
            print ["Notice that the Kepler potential is generated from the PowerSphericalPotential (type index: 7) with alpha = 3"];;
            print ["Thus, the second argument (alpha) must be 3 "]
          else mret tt
        else mret tt) = (post, Ok tt) :> M Obj Cls unit.
Proof.
  destruct flag; [|exists []; by split].
  assert (exists w, Forall is_print w
                    /\ match inst with
                       | PList l =>
                           for_each l (fun pot_sub =>
                             print [doc E pot_sub];; print [init_doc E pot_sub])
                       | _ => print [doc E inst];; print [init_doc E inst]
                       end = (w, Ok tt) :> M Obj Cls unit)
    as (w & Hw & Hdoc).
  { assert (forall p : Pot Obj,
              (print [doc E p];; print [init_doc E p] : M Obj Cls unit)
              = ([Print (doc E p); Print (init_doc E p)], Ok tt)) as Hone by done.
    destruct inst as [|o|l]; try (eexists; split; [|apply Hone];
      repeat constructor; by eexists).
    eexists. split; [|apply for_each_all_ok; intros x _; by rewrite Hone].
    unfold logs_of. induction l as [|x l IH]; [by constructor|].
    cbn [map concat]. rewrite Hone, log_pair.
    constructor; [by eexists|]. constructor; [by eexists|]. exact IH. }
  unfold print at 1. mstep. rewrite Hdoc. mstep.
  case_bool_decide; unfold print; mstep; eexists; (split; [|reflexivity]).
  - constructor; [by eexists|]. apply Forall_app. split; [done|].
    constructor; [by eexists|]. constructor; [by eexists|]. by constructor.
  - constructor; [by eexists|]. apply Forall_app. split; [done|by constructor].
Qed.

(** The run on a supported potential, part by part. *)
Lemma show_potential_supported name flag fname w1 m inst ta n ts az :
  getPotInstance E name = (w1, Ok (m, inst)) ->
  inst <> PNone ->
  outcome (printPotTypeArg E name m inst 0 false) = Ok (ta, n, ts, az) ->
  exists post,
    Forall is_print post
    /\ show_potential E name flag fname
       = (w1 ++ log (printPotTitle (Obj := Obj) (Cls := Cls))
          ++ log (printPotTypeArg E name m inst 0 false)
          ++ log (printSpliter (Obj := Obj) (Cls := Cls))
          ++ (if bool_decide (fname <> "")
              then Print ("Save type arguments of " +:+ name +:+ " to file "
                          +:+ fname +:+ ".")
                   :: log (savePotTypeArg E fname n ts az)
              else [])
          ++ post,
          Ok tt).
Proof.
  intros Hget Hne Hprint.
  destruct (documentation_part name inst flag) as (docs & Hdocs & Hdoc_eq).
  exists (log (printSpliter (Obj := Obj) (Cls := Cls)) ++ docs).
  split.
  { apply Forall_app. split; [|done]. constructor; [by eexists|by constructor]. }
  unfold show_potential. rewrite (bind_ok _ _ _ _ Hget).
  assert (printPotTypeArg E name m inst 0 false
          = (log (printPotTypeArg E name m inst 0 false), Ok (ta, n, ts, az)))
    as Hp by (rewrite <- Hprint; apply surjective_M).
  destruct inst as [|o|l]; [done| |].
  all: rewrite (bind_ok _ _ _ tt (eq_refl : printPotTitle = (_, Ok tt))).
  all: rewrite (bind_ok _ _ _ _ Hp).
  all: rewrite (bind_ok _ _ _ tt (eq_refl : printSpliter = (_, Ok tt))).
  all: rewrite Hdoc_eq.
  all: destruct (bool_decide (fname <> "")).
  all: rewrite ?savePotTypeArg_eq; unfold printPotTitle, printSpliter, print.
  all: mstep; rewrite ?log_pair, ?outcome_pair; cbn [app]; f_equal.
  all: by rewrite ?app_nil_r, <- ?app_assoc.
Qed.

End Files.

Section FilesOfTheScript.

Context {Obj Cls Arg : Type} (E : Env Obj Cls Arg).

Local Abbreviation no_file := (fun ev : event Obj Cls => file_of ev = None).

Lemma show_potential_print_fails name flag fname w1 m inst wp e :
  getPotInstance E name = (w1, Ok (m, inst)) ->
  inst <> PNone ->
  printPotTypeArg E name m inst 0 false = (wp, Raise e) ->
  show_potential E name flag fname
  = (w1 ++ log (printPotTitle (Obj := Obj) (Cls := Cls)) ++ wp, Raise e).
Proof.
  intros Hget Hne Hpr. unfold show_potential. rewrite (bind_ok _ _ _ _ Hget).
  destruct inst as [|o|l]; [done| |].
  all: rewrite (bind_ok _ _ _ tt (eq_refl : printPotTitle = (_, Ok tt))).
  all: by rewrite (bind_raise _ _ _ _ Hpr), !log_pair, !outcome_pair.
Qed.

Lemma show_potential_files_supported name flag fname w1 m inst :
  getPotInstance E name = (w1, Ok (m, inst)) ->
  inst <> PNone ->
  Forall (fun ev => forall f, file_of ev = Some f -> f = fname /\ fname <> "")
    (log (show_potential E name flag fname)).
Proof.
  intros Hget Hne.
  set (P := fun ev : event Obj Cls => forall f, file_of ev = Some f -> _).
  assert (forall w, Forall no_file w -> Forall P w) as HP.
  { intros w H. eapply Forall_impl; [exact H|].
    intros ev Hev f Hf. congruence. }
  pose proof (getPotInstance_no_file E name) as Hw1.
  rewrite Hget, log_pair in Hw1.
  pose proof (printPotTypeArg_no_file E name m inst 0 false) as Hwp.
  destruct (printPotTypeArg E name m inst 0 false)
    as [wp [[[[ta n] ts] az]|e]] eqn:Hpr.
  - destruct (show_potential_supported E name flag fname w1 m inst ta n ts az
                Hget Hne) as (post & Hpost & ->); [by rewrite Hpr|].
    rewrite Hpr, !log_pair in *.
    apply Forall_app; split; [by apply HP|].
    apply Forall_app; split; [apply HP; by repeat constructor|].
    apply Forall_app; split; [by apply HP|].
    apply Forall_app; split; [apply HP; by repeat constructor|].
    apply Forall_app; split; [|by apply HP, Forall_print_no_file].
    case_bool_decide as Hf; [|by constructor].
    constructor; [done|].
    rewrite savePotTypeArg_eq, log_pair.
    constructor; [by intros f [= <-]|].
    apply List.Forall_forall. by intros ev [text [<- _]]%in_map_iff f [= <-].
  - rewrite (show_potential_print_fails _ _ _ _ _ _ _ _ Hget Hne Hpr).
    rewrite !log_pair in *. apply HP, Forall_app; split; [done|].
    apply Forall_app; split; [by repeat constructor|done].
Qed.

Lemma show_potential_files name flag fname :
  Forall (fun ev => forall f, file_of ev = Some f ->
                      f = fname /\ fname <> ""
                      /\ exists m inst,
                           outcome (getPotInstance E name) = Ok (m, inst)
                           /\ inst <> PNone)
    (log (show_potential E name flag fname)).
Proof.
  pose proof (getPotInstance_no_file E name) as Hw1.
  destruct (getPotInstance E name) as [w1 [[m inst]|e]] eqn:Hget;
    rewrite log_pair in Hw1.
  2: { unfold show_potential. rewrite (bind_raise _ _ _ _ Hget), log_pair.
       eapply Forall_impl; [exact Hw1|]. intros ev Hev f Hf. congruence. }
  destruct inst as [|o|l].
  { rewrite (show_potential_not_found E _ _ _ _ _ Hget), log_pair.
    eapply Forall_impl with (P := no_file).
    - apply Forall_app. split; [done|].
      constructor; [done|apply listPot_no_file].
    - intros ev Hev f Hf. congruence. }
  all: eapply Forall_impl;
         [by eapply show_potential_files_supported|].
  all: intros ev Hev f Hf; destruct (Hev f Hf) as [-> Hne].
  all: rewrite outcome_pair; by eauto 6.
Qed.

End FilesOfTheScript.

(** X11.  The script writes to one file at most: an event on a file [f]
    appears in the log only when [f] is the argument kept for [-o], is not the
    empty name, and the name given on the command line resolved to a
    supported potential.  (So nothing is written without [-o], without a
    potential name, or for an unknown name.) *)
Theorem script_writes_only_the_o_file {Obj Cls Arg}
    (galpy : option (Env Obj Cls Arg)) (argv : list string)
    (ev : event Obj Cls) (f : string) :
  In ev (log (main galpy argv)) ->
  file_of ev = Some f ->
  exists E w0 flag name rest m inst,
    galpy = Some E
    /\ parse_command_line (Obj := Obj) (Cls := Cls) argv
       = (w0, Ok (flag, f, name :: rest))
    /\ f <> ""
    /\ outcome (getPotInstance E name) = Ok (m, inst)
    /\ inst <> PNone.
Proof.
  destruct galpy as [E|]; [|by intros [<-|[]]].
  unfold main, run. intros Hin Hf.
  pose proof (parse_command_line_prints (Obj := Obj) (Cls := Cls) argv) as Hw0.
  apply Forall_print_no_file in Hw0. rewrite List.Forall_forall in Hw0.
  destruct (parse_command_line argv) as [w0 [[[flag fname] rem]|e]] eqn:Hp;
    rewrite log_pair in Hw0.
  2: { rewrite (bind_raise _ _ _ _ eq_refl), log_pair in Hin.
       specialize (Hw0 _ Hin). congruence. }
  rewrite (bind_ok _ _ _ _ eq_refl), log_pair in Hin.
  apply in_app_iff in Hin as [Hin|Hin]; [specialize (Hw0 _ Hin); congruence|].
  destruct rem as [|name rest].
  - exfalso. rewrite setup_text_eq in Hin. revert Hin. mstep.
    pose proof (listPot_no_file E) as Hl. rewrite List.Forall_forall in Hl.
    destruct (listPot E) as [wl rl]. rewrite !log_pair in *.
    intros [Hin|Hin]%in_app_iff; [|specialize (Hl _ Hin); congruence].
    apply in_map_iff in Hin as [text [<- _]]. done.
  - pose proof (show_potential_files E name flag fname) as Hs.
    rewrite List.Forall_forall in Hs.
    destruct (Hs _ Hin f Hf) as (-> & Hne & m & inst & Hget & Hinst).
    by exists E, w0, flag, name, rest, m, inst.
Qed.

Lemma script_writes_only_the_o_file_witness :
  (In (FileOpenW "out")
      (log (main (Some Demo.galpy) ["-o"; "out"; "KeplerPotential"]))
   /\ file_of (FileOpenW (Obj := Demo.obj) (Cls := Demo.cls) "out") = Some "out")
  /\ exists E w0 flag name rest m inst,
       Some Demo.galpy = Some E
       /\ parse_command_line (Obj := Demo.obj) (Cls := Demo.cls)
            ["-o"; "out"; "KeplerPotential"]
          = (w0, Ok (flag, "out", name :: rest))
       /\ "out" <> ""
       /\ outcome (getPotInstance E name) = Ok (m, inst)
       /\ inst <> PNone.
Proof.
  assert (In (FileOpenW "out")
             (log (main (Some Demo.galpy) ["-o"; "out"; "KeplerPotential"])))
    as Hin.
  { vm_compute. do 10 right. left. reflexivity. }
  split; [split; [exact Hin|reflexivity]|].
  exact (script_writes_only_the_o_file (Some Demo.galpy)
           ["-o"; "out"; "KeplerPotential"] (FileOpenW "out") "out" Hin eq_refl).
Defined.

(** X12.  In a run with [-o f] on a supported potential that ends with
    status 0 (so that the file could be opened and written), the file [f]
    holds the three lines of the values [printPotTypeArg] returned for that
    potential: the count, the type codes, the arguments. *)
Theorem option_o_saves_returned_values {Obj Cls Arg} (E : Env Obj Cls Arg)
    (argv : list string) (w0 w1 : list (event Obj Cls)) (flag : bool)
    (fname name : string) (rest : list string)
    (m : option (ModRef Obj Cls)) (inst : Pot Obj) (ta : string) (n : Z)
    (ts : list Z) (az : list Arg) (fs : gmap string string) :
  parse_command_line argv = (w0, Ok (flag, fname, name :: rest)) ->
  fname <> "" ->
  getPotInstance E name = (w1, Ok (m, inst)) ->
  inst <> PNone ->
  outcome (printPotTypeArg E name m inst 0 false) = Ok (ta, n, ts, az) ->
  (forall a, no_newline (fmt_14g E a) = true) ->
  ends_well E argv ->
  exists content,
    files_after (log (main (Some E) argv)) fs !! fname = Some content
    /\ lines content
       = ["0 " +:+ str_int n;
          space_ended (map str_int ts);
          space_ended (map (fmt_14g E) az)].
Proof.
  intros Hparse Hf Hget Hne Hprint Hfmt _.
  unfold main. rewrite (run_named E _ _ _ _ _ _ Hparse).
  destruct (show_potential_supported E name flag fname w1 m inst ta n ts az
              Hget Hne Hprint) as (post & Hpost & ->).
  rewrite !log_pair.
  rewrite bool_decide_true by done.
  pose proof (parse_command_line_prints (Obj := Obj) (Cls := Cls) argv) as Hw0.
  rewrite Hparse, log_pair in Hw0.
  pose proof (getPotInstance_no_file E name) as Hw1.
  rewrite Hget, log_pair in Hw1.
  rewrite !files_after_app.
  rewrite (files_after_no_file w0) by by apply Forall_print_no_file.
  rewrite (files_after_no_file w1) by done.
  rewrite (files_after_no_file (log printPotTitle)) by by repeat constructor.
  rewrite (files_after_no_file (log (printPotTypeArg _ _ _ _ _ _)))
    by apply printPotTypeArg_no_file.
  rewrite (files_after_no_file (log printSpliter)) by by repeat constructor.
  rewrite (files_after_no_file post) by by apply Forall_print_no_file.
  rewrite files_after_cons. cbn [apply_event].
  by apply savePotTypeArg_file_lines.
Qed.

Lemma option_o_saves_returned_values_witness :
  (parse_command_line (Obj := Demo.obj) (Cls := Demo.cls)
     ["-o"; "out"; "MWPotential"] = ([], Ok (false, "out", ["MWPotential"]))
   /\ "out" <> ""
   /\ getPotInstance Demo.galpy "MWPotential"
      = ([CallDir; CallGetattribute "MWPotential";
          CallDim (PList [PObj Demo.Kepler; PObj Demo.Plummer]);
          CallCheckC (PList [PObj Demo.Kepler; PObj Demo.Plummer])],
         Ok (None, PList [PObj Demo.Kepler; PObj Demo.Plummer]))
   /\ PList [PObj Demo.Kepler; PObj Demo.Plummer] <> PNone
   /\ outcome (printPotTypeArg Demo.galpy "MWPotential" None
                 (PList [PObj Demo.Kepler; PObj Demo.Plummer]) 0 false)
      = Ok ("7:1.0,3.0|17:1.0,2.0", 2%Z, [7%Z; 17%Z], [1%Z; 3%Z; 1%Z; 2%Z])
   /\ (forall a, no_newline (fmt_14g Demo.galpy a) = true)
   /\ ends_well Demo.galpy ["-o"; "out"; "MWPotential"])
  /\ exists content,
       files_after (log (main (Some Demo.galpy) ["-o"; "out"; "MWPotential"]))
         (∅ : gmap string string) !! "out" = Some content
       /\ lines content = ["0 2"; "7 17 "; "1 3 1 2 "].
Proof.
  split.
  { split; [reflexivity|]. split; [discriminate|]. split; [reflexivity|].
    split; [discriminate|]. split; [reflexivity|].
    split; [exact no_newline_str_int|reflexivity]. }
  exact (option_o_saves_returned_values Demo.galpy
           ["-o"; "out"; "MWPotential"] _ _ false "out" "MWPotential" []
           None _ _ _ _ _ ∅ eq_refl ltac:(discriminate) eq_refl
           ltac:(discriminate) eq_refl no_newline_str_int eq_refl).
Defined.

(** ** More on the listing *)

Section MoreListing.

Context {Obj Cls Arg : Type} (E : Env Obj Cls Arg).

Lemma prints_of_app (w1 w2 : list (event Obj Cls)) :
  prints_of (w1 ++ w2) = prints_of w1 ++ prints_of w2.
Proof.
  induction w1 as [|ev w1 IH]; [done|].
  destruct ev; cbn [app prints_of]; by rewrite ?IH.
Qed.

(** [getPotInstance] prints nothing. *)
Lemma getPotInstance_silent (name : string) :
  prints_of (log (getPotInstance E name)) = [].
Proof. getPotInstance_cases E name; done. Qed.

Lemma listPot_body_prints (name : string) :
  outcome (listPot_body E name) = Ok tt ->
  prints_of (log (listPot_body E name)) = listed_lines E name.
Proof.
  unfold listPot_body, listed_lines.
  pose proof (getPotInstance_silent name) as Hs.
  destruct (getPotInstance E name) as [w [[m inst]|e]]; [|done].
  rewrite log_pair in Hs. rewrite outcome_pair. mstep.
  destruct inst as [|o|l].
  - intros _. mstep. by rewrite log_pair, app_nil_r.
  - destruct (printPotTypeArg E name m (PObj o) 0 false) as [wp [r|e]]; [|done].
    intros _. mstep. by rewrite !log_pair, app_nil_r, prints_of_app, Hs.
  - destruct (printPotTypeArg E name m (PList l) 0 false) as [wp [r|e]]; [|done].
    intros _. mstep. by rewrite !log_pair, app_nil_r, prints_of_app, Hs.
Qed.

Lemma prints_of_logs_of (names : list string) :
  (forall x, In x names -> outcome (listPot_body E x) = Ok tt) ->
  prints_of (logs_of (listPot_body E) names)
  = concat (map (listed_lines E) names).
Proof.
  unfold logs_of. induction names as [|x names IH]; intros H; [done|].
  cbn [map concat]. rewrite prints_of_app, IH by (intros y Hy; apply H; by right).
  by rewrite listPot_body_prints by (apply H; by left).
Qed.

End MoreListing.

(** X13.  [listPot] goes through the names in the order of
    [dir(galpy.potential)] and stops at the first name on which the body of
    its loop raises: it raises the same exception, and the names that follow
    are not looked up. *)
Theorem listPot_stops_at_first_failure {Obj Cls Arg} (E : Env Obj Cls Arg)
    (pre post : list string) (name : string) (e : exn) :
  potential_dir E = pre ++ name :: post ->
  (forall x, In x pre -> outcome (listPot_body E x) = Ok tt) ->
  outcome (listPot_body E name) = Raise e ->
  listPot E
  = (log (printPotTitle (Obj := Obj) (Cls := Cls))
     ++ log (printSpliter (Obj := Obj) (Cls := Cls))
     ++ CallDir :: logs_of (listPot_body E) pre ++ log (listPot_body E name),
     Raise e).
Proof.
  intros Hdir Hpre Hname. rewrite listPot_eq, Hdir.
  by rewrite (for_each_first_failure pre post name _ e Hpre Hname),
    log_pair, outcome_pair.
Qed.

Lemma listPot_stops_at_first_failure_witness :
  (potential_dir (Demo.demo_env ["KeplerPotential"; "BrokenPotential"; "MWPotential"])
   = ["KeplerPotential"] ++ "BrokenPotential" :: ["MWPotential"]
   /\ (forall x, In x ["KeplerPotential"] ->
         outcome (listPot_body
                    (Demo.demo_env ["KeplerPotential"; "BrokenPotential"; "MWPotential"]) x)
         = Ok tt)
   /\ outcome (listPot_body
                 (Demo.demo_env ["KeplerPotential"; "BrokenPotential"; "MWPotential"])
                 "BrokenPotential")
      = Raise (OtherError "KeyError"))
  /\ outcome (listPot (Demo.demo_env ["KeplerPotential"; "BrokenPotential"; "MWPotential"]))
     = Raise (OtherError "KeyError").
Proof.
  assert (forall x, In x ["KeplerPotential"] ->
            outcome (listPot_body
                       (Demo.demo_env ["KeplerPotential"; "BrokenPotential"; "MWPotential"]) x)
            = Ok tt) as Hpre.
  { intros x [<-|[]]. reflexivity. }
  split; [split; [reflexivity|split; [exact Hpre|reflexivity]]|].
  exact (f_equal snd
           (listPot_stops_at_first_failure
              (Demo.demo_env ["KeplerPotential"; "BrokenPotential"; "MWPotential"])
              ["KeplerPotential"] ["MWPotential"] "BrokenPotential"
              (OtherError "KeyError") eq_refl Hpre eq_refl)).
Defined.

(** X14.  When the listing completes, its output is the title, the
    separator, and then, name by name in the order of the namespace, the lines
    [printPotTypeArg] prints for the supported potentials; a name that is not
    supported leaves nothing in the output. *)
Theorem listPot_output {Obj Cls Arg} (E : Env Obj Cls Arg) :
  outcome (listPot E) = Ok tt ->
  prints_of (log (listPot E))
  = prints_of (log (printPotTitle (Obj := Obj) (Cls := Cls)))
    ++ prints_of (log (printSpliter (Obj := Obj) (Cls := Cls)))
    ++ concat (map (listed_lines E) (potential_dir E)).
Proof.
  rewrite listPot_eq, outcome_pair, log_pair. intros Hok.
  assert (forall x, In x (potential_dir E) ->
            outcome (listPot_body E x) = Ok tt) as Hall.
  { intros x Hx. by destruct (for_each_ok_in _ _ x Hok Hx). }
  rewrite (for_each_all_ok _ _ Hall), log_pair.
  rewrite !prints_of_app. cbn [prints_of].
  by rewrite (prints_of_logs_of E _ Hall).
Qed.

Lemma listPot_output_witness :
  outcome (listPot Demo.galpy) = Ok tt
  /\ prints_of (log (listPot Demo.galpy))
     = prints_of (log (printPotTitle (Obj := Demo.obj) (Cls := Demo.cls)))
       ++ prints_of (log (printSpliter (Obj := Demo.obj) (Cls := Demo.cls)))
       ++ concat (map (listed_lines Demo.galpy) (potential_dir Demo.galpy)).
Proof.
  split; [reflexivity|].
  exact (listPot_output Demo.galpy eq_refl).
Defined.

(** ** The line of a single potential, and the lines of the file *)

(** X15.  For a single potential with at least one type code, when
    [print_long_list] is set or there are at most 12 arguments, the one line
    printed shows the encoding that is returned. *)
Theorem printPotTypeArg_shows_returned_encoding {Obj Cls Arg}
    (E : Env Obj Cls Arg) (name : string) (m : option (ModRef Obj Cls))
    (o : Obj) (off : nat) (long : bool) (n : Z) (pot_type : list Z)
    (pot_args : list Arg) :
  _parse_pot E (PObj o) = Ok (n, pot_type, pot_args) ->
  pot_type <> [] ->
  long = true \/ length pot_args <= 12 ->
  printPotTypeArg E name m (PObj o) off long
  = ([CallParsePot (PObj o);
      Print (listing_line off name (encoding E pot_type pot_args))],
     Ok (encoding E pot_type pot_args, n, pot_type, pot_args)).
Proof.
  intros Hp Ht Hshow.
  rewrite printPotTypeArg_obj, (printSingle_typed E _ _ _ _ _ _ _ Hp Ht).
  assert (bool_decide (12 < length pot_args) && negb long = false) as ->;
    [|done].
  destruct Hshow as [->|Hlen]; [apply andb_false_r|].
  by rewrite bool_decide_false by lia.
Qed.

Lemma printPotTypeArg_shows_returned_encoding_witness :
  (_parse_pot Demo.galpy (PObj Demo.Wide)
   = Ok (1%Z, [31%Z], [1; 2; 3; 4; 5; 6; 7; 8; 9; 10; 11; 12; 13]%Z)
   /\ [31%Z] <> []
   /\ (true = true
       \/ length [1; 2; 3; 4; 5; 6; 7; 8; 9; 10; 11; 12; 13]%Z <= 12))
  /\ prints_of (log (printPotTypeArg Demo.galpy "WidePotential" None
                       (PObj Demo.Wide) 0 true))
     = [" WidePotential                  31:1.0,2.0,3.0,4.0,5.0,6.0,7.0,8.0,9.0,10.0,11.0,12.0,13.0"].
Proof.
  split; [split; [reflexivity|split; [discriminate|left; reflexivity]]|].
  exact (f_equal (fun r => prints_of (log r))
           (printPotTypeArg_shows_returned_encoding Demo.galpy "WidePotential"
              None Demo.Wide 0 true 1%Z [31%Z]
              [1; 2; 3; 4; 5; 6; 7; 8; 9; 10; 11; 12; 13]%Z
              eq_refl ltac:(discriminate) (or_introl eq_refl))).
Defined.

Lemma str_int_inj (z1 z2 : Z) : str_int z1 = str_int z2 -> z1 = z2.
Proof.
  unfold str_int. intros H.
  assert (forall z, NilZero.int_of_string (NilZero.string_of_int (Z.to_int z))
                    = Some (Z.to_int z)) as Hback.
  { intros z. apply NilZero.isi; destruct z as [|p|p]; try done.
    - cbn. intros [= Hp]. by apply (DecimalPos.Unsigned.to_uint_nonnil p).
    - cbn. intros [= Hp]. by apply (DecimalPos.Unsigned.to_uint_nonnil p). }
  pose proof (Hback z1) as H1. rewrite H, Hback in H1.
  injection H1 as H1.
  rewrite <- (DecimalZ.of_to z1), <- (DecimalZ.of_to z2). by rewrite H1.
Qed.

Lemma no_space_uint (d : Decimal.uint) :
  no_space (NilEmpty.string_of_uint d) = true.
Proof. induction d; simpl; done. Qed.

Lemma no_space_str_int (z : Z) : no_space (str_int z) = true.
Proof.
  unfold str_int, NilZero.string_of_int, NilZero.string_of_uint.
  destruct (Z.to_int z) as [d|d].
  - destruct d; try done; apply (no_space_uint (_ _)).
  - cbn [no_space]. destruct d; try done; apply (no_space_uint (_ _)).
Qed.

(** The text up to the first space, and what follows it, are determined. *)
Lemma first_token (s1 s2 r1 r2 : string) :
  no_space s1 = true -> no_space s2 = true ->
  s1 +:+ " " +:+ r1 = s2 +:+ " " +:+ r2 ->
  s1 = s2 /\ r1 = r2.
Proof.
  assert (forall s, "" +:+ s = s) as Hnil by done.
  revert s2. induction s1 as [|c s1 IH]; intros [|c2 s2] H1 H2.
  - rewrite !Hnil, !str_app_cons, !Hnil. by intros [= ->].
  - rewrite !Hnil, !str_app_cons, !Hnil. cbn [no_space] in H2. intros [= <- _].
    by rewrite bool_decide_true in H2.
  - rewrite !Hnil, !str_app_cons, !Hnil. cbn [no_space] in H1. intros [= -> _].
    by rewrite bool_decide_true in H1.
  - rewrite !str_app_cons. cbn [no_space] in H1, H2.
    apply andb_true_iff in H1 as [_ H1]. apply andb_true_iff in H2 as [_ H2].
    intros [= -> Heq]. destruct (IH s2 H1 H2 Heq) as [-> ->]. done.
Qed.

Lemma space_ended_cons (s : string) (l : list string) :
  space_ended (s :: l) = s +:+ " " +:+ space_ended l.
Proof.
  unfold space_ended. cbn [map]. by rewrite concat_empty_cons, str_app_assoc.
Qed.

Lemma space_ended_inj (l1 l2 : list string) :
  Forall (fun s => no_space s = true) l1 ->
  Forall (fun s => no_space s = true) l2 ->
  space_ended l1 = space_ended l2 ->
  l1 = l2.
Proof.
  intros H1. revert l2.
  induction H1 as [|s1 l1 Hs1 _ IH]; intros l2 H2.
  - destruct H2 as [|s2 l2 Hs2 _]; [done|].
    rewrite space_ended_cons. by destruct s2.
  - destruct H2 as [|s2 l2 Hs2 H2].
    + rewrite space_ended_cons. by destruct s1.
    + rewrite !space_ended_cons. intros Heq.
      destruct (first_token _ _ _ _ Hs1 Hs2 Heq) as [-> Hrest].
      f_equal. by apply IH.
Qed.

(** X16.  The count and the type codes can be read back from the file: two
    calls of [savePotTypeArg] that leave the same text in the file were made
    with the same [n_pot] and the same list of type codes. *)
Theorem config_file_determines_types {Obj Cls Arg} (E : Env Obj Cls Arg)
    (f : string) (n1 n2 : Z) (ts1 ts2 : list Z) (az1 az2 : list Arg)
    (fs1 fs2 : gmap string string) :
  (forall a, no_newline (fmt_14g E a) = true) ->
  files_after (log (savePotTypeArg E f n1 ts1 az1)) fs1 !! f
  = files_after (log (savePotTypeArg E f n2 ts2 az2)) fs2 !! f ->
  n1 = n2 /\ ts1 = ts2.
Proof.
  intros Hfmt Hsame.
  destruct (savePotTypeArg_file_lines E f n1 ts1 az1 fs1 Hfmt)
    as (c1 & Hc1 & Hl1).
  destruct (savePotTypeArg_file_lines E f n2 ts2 az2 fs2 Hfmt)
    as (c2 & Hc2 & Hl2).
  rewrite Hc1, Hc2 in Hsame. injection Hsame as ->.
  rewrite Hl1 in Hl2. injection Hl2 as Hn Hts _.
  split.
  - apply str_int_inj. exact Hn.
  - assert (map str_int ts1 = map str_int ts2) as Hmap.
    { apply space_ended_inj; [| |done].
      all: apply List.Forall_forall; intros s [t [<- _]]%in_map_iff.
      all: apply no_space_str_int. }
    clear - Hmap. revert ts2 Hmap.
    induction ts1 as [|t1 ts1 IH]; intros [|t2 ts2]; try done.
    cbn [map]. intros [= Ht Hrest].
    f_equal; [by apply str_int_inj|by apply IH].
Qed.

Lemma config_file_determines_types_witness :
  ((forall a, no_newline (fmt_14g Demo.galpy a) = true)
   /\ files_after (log (savePotTypeArg Demo.galpy "out" 2%Z [7%Z; 17%Z] [1%Z]))
        (∅ : gmap string string) !! "out"
      = files_after (log (savePotTypeArg Demo.galpy "out" 2%Z [7%Z; 17%Z] [1%Z]))
          ({["out" := "old"]} : gmap string string) !! "out")
  /\ (2%Z = 2%Z /\ [7%Z; 17%Z] = [7%Z; 17%Z]).
Proof.
  split; [split; [exact no_newline_str_int|reflexivity]|].
  exact (config_file_determines_types Demo.galpy "out" 2%Z 2%Z [7%Z; 17%Z]
           [7%Z; 17%Z] [1%Z] [1%Z] ∅ {["out" := "old"]}
           no_newline_str_int eq_refl).
Defined.

(** ** The indentation of the lines *)

Section Indentation.

Context {Obj Cls Arg : Type} (E : Env Obj Cls Arg).

Lemma spaces_add (a b : nat) : spaces (a + b) = spaces a +:+ spaces b.
Proof.
  induction a as [|a IH]; [done|].
  cbn [Nat.add spaces]. by rewrite IH, str_app_cons.
Qed.

Lemma indented_weaken (a b : nat) (ev : event Obj Cls) :
  indented (a + b) ev -> indented a ev.
Proof.
  intros H text Ht. destruct (H text Ht) as [rest ->].
  exists (spaces b +:+ rest). by rewrite spaces_add, str_app_assoc.
Qed.

Lemma indented_call (n : nat) (ev : event Obj Cls) :
  (forall text, ev <> Print text) -> indented n ev.
Proof. intros H text Ht. by destruct (H text). Qed.

Lemma indented_listing_line (n : nat) (name text : string) :
  indented (Obj := Obj) (Cls := Cls) n (Print (listing_line n name text)).
Proof. intros t [= <-]. by eexists. Qed.

Lemma printSingle_indented name p off long :
  Forall (indented off) (log (printSingle E name p off long)).
Proof.
  destruct (_parse_pot E p) as [[[n ts] az]|e] eqn:Hp.
  - destruct ts as [|t ts].
    + rewrite (printSingle_untyped E _ _ _ _ _ _ Hp), log_pair.
      constructor; [by apply indented_call|].
      destruct (_ && _); [|by constructor].
      constructor; [apply indented_listing_line|by constructor].
    + rewrite (printSingle_typed E _ _ _ _ _ _ _ Hp), log_pair by done.
      constructor; [by apply indented_call|].
      constructor; [apply indented_listing_line|by constructor].
  - rewrite (printSingle_raise E _ _ _ _ _ Hp), log_pair.
    constructor; [by apply indented_call|by constructor].
Qed.

(** The lines behind the headline of a combination, given the indentation of
    the lines of its components. *)
Lemma combination_indented name (l : list (Pot Obj)) off long :
  (forall sub, In sub l ->
     Forall (indented (off + 4))
       (log (printPotTypeArg E (type_name E sub) None sub (off + 4) long))) ->
  exists rest,
    log (printPotTypeArg E name None (PList l) off long)
    = Print (listing_line off name
               ("a combination of " +:+ str_int (Z.of_nat (length l))
                +:+ " potentials:")) :: rest
    /\ Forall (indented (off + 4)) rest.
Proof.
  intros Hsubs. cbn [printPotTypeArg].
  rewrite (log_bind_ok _ _ tt) by done. eexists. split; [done|].
  apply log_bind_Forall; [by apply log_combine_loop_Forall|].
  intros [[[ta n] ts] az] _.
  constructor; [apply indented_listing_line|by constructor].
Qed.

Lemma printPotTypeArg_indented name m inst off long :
  Forall (indented off) (log (printPotTypeArg E name m inst off long)).
Proof.
  revert name m off long.
  induction inst as [|o|l IH] using Pot_nested_ind; intros name m off long.
  - destruct m; by constructor.
  - rewrite printPotTypeArg_obj. apply printSingle_indented.
  - destruct m as [mr|]; [apply printSingle_indented|].
    rewrite List.Forall_forall in IH.
    destruct (combination_indented name l off long) as (rest & -> & Hrest).
    { intros sub Hsub. by apply IH. }
    constructor; [apply indented_listing_line|].
    eapply Forall_impl; [exact Hrest|]. intros ev. apply indented_weaken.
Qed.

End Indentation.

(** X17.  Every line [printPotTypeArg] prints starts with
    [print_front_offset] spaces; for a combination the headline is the first
    thing printed, and all the lines behind it (those of the components and
    the line of the combination) start with four spaces more. *)
Theorem printPotTypeArg_indentation {Obj Cls Arg} (E : Env Obj Cls Arg)
    (name : string) (m : option (ModRef Obj Cls)) (inst : Pot Obj)
    (off : nat) (long : bool) :
  Forall (indented off) (log (printPotTypeArg E name m inst off long))
  /\ forall l, inst = PList l -> m = None ->
       exists rest,
         log (printPotTypeArg E name m inst off long)
         = Print (listing_line off name
                    ("a combination of " +:+ str_int (Z.of_nat (length l))
                     +:+ " potentials:")) :: rest
         /\ Forall (indented (off + 4)) rest.
Proof.
  split; [apply printPotTypeArg_indented|].
  intros l -> ->. apply combination_indented.
  intros sub _. apply printPotTypeArg_indented.
Qed.

Lemma printPotTypeArg_indentation_witness :
  (PList [PObj Demo.Kepler; PObj Demo.Plummer]
   = PList [PObj Demo.Kepler; PObj Demo.Plummer]
   /\ (None : option (ModRef Demo.obj Demo.cls)) = None)
  /\ exists rest,
       log (printPotTypeArg Demo.galpy "MWPotential" None
              (PList [PObj Demo.Kepler; PObj Demo.Plummer]) 2 false)
       = Print (listing_line 2 "MWPotential"
                  ("a combination of " +:+ str_int (Z.of_nat 2)
                   +:+ " potentials:")) :: rest
       /\ Forall (indented (2 + 4)) rest.
Proof.
  split; [split; reflexivity|].
  exact (proj2 (printPotTypeArg_indentation Demo.galpy "MWPotential" None
                  (PList [PObj Demo.Kepler; PObj Demo.Plummer]) 2 false)
           _ eq_refl eq_refl).
Defined.

(** ** When a potential is supported *)

(** X18.  A name of the namespace that contains "Potential" is reported as
    supported as soon as its candidate (the list bound to the name, the
    instance its class builds with default parameters, or the object bound to
    it) has dimension 3 and C support: [getPotInstance] then returns that
    candidate, with no module for a list, the class for a built instance, the
    type for an object. *)
Theorem getPotInstance_supported_when {Obj Cls Arg} (E : Env Obj Cls Arg)
    (name : string) (m : option (ModRef Obj Cls)) (inst : Pot Obj) :
  is_potential_name E name = true ->
  (exists l, potential_getattribute E name = AList l
             /\ m = None /\ inst = PList l)
  \/ (exists c o, potential_getattribute E name = AClass c
                  /\ new_instance E c = Ok o
                  /\ m = Some (MClass c) /\ inst = PObj o)
  \/ (exists o, potential_getattribute E name = AOther o
                /\ m = Some (MTypeOf o) /\ inst = PObj o) ->
  _dim E inst = Ok (Some 3%Z) ->
  _check_c E inst = Ok true ->
  outcome (getPotInstance E name) = Ok (m, inst).
Proof.
  unfold is_potential_name. intros Hname Hcand Hdim Hc.
  unfold getPotInstance. mstep. rewrite Hname.
  destruct Hcand as [(l & -> & -> & ->)|[(c & o & -> & Hnew & -> & ->)
                                        |(o & -> & -> & ->)]]; mstep.
  2: rewrite Hnew; cbn [try_except]; mstep.
  all: rewrite Hdim; mstep; unfold ne_3.
  all: rewrite bool_decide_true by done; cbn [negb].
  all: by rewrite Hc.
Qed.

Lemma getPotInstance_supported_when_witness :
  (is_potential_name Demo.galpy "KeplerPotential" = true
   /\ ((exists l, potential_getattribute Demo.galpy "KeplerPotential" = AList l
                  /\ Some (MClass (Obj := Demo.obj) Demo.KeplerClass) = None
                  /\ PObj Demo.Kepler = PList l)
       \/ (exists c o,
             potential_getattribute Demo.galpy "KeplerPotential" = AClass c
             /\ new_instance Demo.galpy c = Ok o
             /\ Some (MClass (Obj := Demo.obj) Demo.KeplerClass) = Some (MClass c)
             /\ PObj Demo.Kepler = PObj o)
       \/ (exists o, potential_getattribute Demo.galpy "KeplerPotential" = AOther o
                     /\ Some (MClass (Obj := Demo.obj) Demo.KeplerClass) = Some (MTypeOf o)
                     /\ PObj Demo.Kepler = PObj o))
   /\ _dim Demo.galpy (PObj Demo.Kepler) = Ok (Some 3%Z)
   /\ _check_c Demo.galpy (PObj Demo.Kepler) = Ok true)
  /\ outcome (getPotInstance Demo.galpy "KeplerPotential")
     = Ok (Some (MClass (Obj := Demo.obj) Demo.KeplerClass), PObj Demo.Kepler).
Proof.
  assert ((exists l, potential_getattribute Demo.galpy "KeplerPotential" = AList l
                  /\ Some (MClass (Obj := Demo.obj) Demo.KeplerClass) = None
                  /\ PObj Demo.Kepler = PList l)
       \/ (exists c o,
             potential_getattribute Demo.galpy "KeplerPotential" = AClass c
             /\ new_instance Demo.galpy c = Ok o
             /\ Some (MClass (Obj := Demo.obj) Demo.KeplerClass) = Some (MClass c)
             /\ PObj Demo.Kepler = PObj o)
       \/ (exists o, potential_getattribute Demo.galpy "KeplerPotential" = AOther o
                     /\ Some (MClass (Obj := Demo.obj) Demo.KeplerClass) = Some (MTypeOf o)
                     /\ PObj Demo.Kepler = PObj o)) as Hcand.
  { right. left. exists Demo.KeplerClass, Demo.Kepler. repeat split. }
  split; [split; [reflexivity|split; [exact Hcand|split; reflexivity]]|].
  exact (getPotInstance_supported_when Demo.galpy "KeplerPotential" _ _
           eq_refl Hcand eq_refl eq_refl).
Defined.
